(** * rgw_log_backing: shard probing, generation removal and the
      generation manager (logback_generations)

    A shallow embedding of [src/rgw/rgw_log_backing.cc].  Everything the
    file asks of librados, of the FIFO library, of cls_log and of the
    consumer's callbacks is a call into an environment [Env W]; a run
    returns its value, the environment's next state and the calls it made,
    in order.  Iterators of the flat_map are positions in its sorted
    vector.  One operation runs at a time: the mutex is left out, but for
    the lock that [remove_empty] hands to [write] and uses again; so is
    [std::bad_alloc]. *)

From Stdlib Require Import String.
From Stdlib Require Import ZArith List Bool Lia Arith.
Import ListNotations.
Open Scope string_scope.
Open Scope list_scope.
Open Scope Z_scope.

(** ** Error codes *)

(** [bs::error_code] in [bs::system_category()]: the errno value, 0 for the
    default-constructed (success) code. *)
Definition error_code := Z.

(** errno values of <errno.h> on Linux. *)
Module Errno.
Definition ENOENT : Z := 2.
Definition EIO : Z := 5.
Definition ENOMEM : Z := 12.
Definition EFAULT : Z := 14.
Definition EEXIST : Z := 17.
Definition EINVAL : Z := 22.
Definition ENODATA : Z := 61.
Definition ECANCELED : Z := 125.
End Errno.
Import Errno.

#[global] Arguments ENOENT : simpl never.
#[global] Arguments EIO : simpl never.
#[global] Arguments ENOMEM : simpl never.
#[global] Arguments EFAULT : simpl never.
#[global] Arguments EEXIST : simpl never.
#[global] Arguments EINVAL : simpl never.
#[global] Arguments ENODATA : simpl never.
#[global] Arguments ECANCELED : simpl never.

(** [if (ec)] *)
Definition failed (ec : error_code) : bool := negb (ec =? 0).
(** [ec == bs::errc::operation_canceled] *)
Definition is_canceled (ec : error_code) : bool := ec =? ECANCELED.

(** [tl::expected<T, bs::error_code>] *)
Inductive expected (A : Type) : Type :=
| Expected (a : A)
| Unexpected (ec : error_code).
Arguments Expected {A} a.
Arguments Unexpected {A} ec.

(** What a [noexcept] member function does: it returns an error code, or
    the process is gone (a failed assertion, or the dereference of
    [end() - 1] of an empty map). *)
Inductive outcome : Type :=
| Ret (ec : error_code)
| Abort.

(** ** Data model *)

Module log_type.
Inductive t : Type := omap | fifo.
Definition eqb (a b : t) : bool :=
  match a, b with
  | omap, omap | fifo, fifo => true
  | _, _ => false
  end.
End log_type.

Module shard_check.
Inductive t : Type := dne | omap | fifo | corrupt.
Definition eqb (a b : t) : bool :=
  match a, b with
  | dne, dne | omap, omap | fifo, fifo | corrupt, corrupt => true
  | _, _ => false
  end.
End shard_check.

Definition uint64_max : Z := 2 ^ 64.
(** [x + 1] on a [uint64_t] *)
Definition u64_succ (x : Z) : Z := (x + 1) mod uint64_max.

(** Modelled from the spec: the generation entry of rgw_log_backing.h (not
    under src/): "gen_id (monotonic non-negative integer, dense from 0),
    type (enumeration {OMAP, FIFO}), empty (boolean, false by default)". *)
Record logback_generation : Type := mk_gen {
  gen_id : Z;
  type : log_type.t;
  empty : bool
}.

(** [entries_t], a [flat_map<uint64_t, logback_generation>]: the vector of
    (key, value) pairs, kept in strictly ascending key order. *)
Definition entries_t := list (Z * logback_generation).

Fixpoint keys_above (lo : Z) (es : entries_t) : bool :=
  match es with
  | [] => true
  | (k, _) :: tl => (lo <? k) && keys_above k tl
  end.

(** The container's invariant: keys strictly ascending. *)
Definition flat_map_ok (es : entries_t) : bool :=
  match es with
  | [] => true
  | (k, _) :: tl => keys_above k tl
  end.

(** [es.emplace(k, v)]: inserts in key order unless the key is present. *)
Fixpoint emplace (k : Z) (v : logback_generation) (es : entries_t) : entries_t :=
  match es with
  | [] => [(k, v)]
  | (k', v') :: tl =>
      if k <? k' then (k, v) :: es
      else if k =? k' then es
      else (k', v') :: emplace k v tl
  end.

(** [es.lower_bound(k)]: the first position whose key is not below [k]. *)
Fixpoint lower_bound (es : entries_t) (k : Z) : nat :=
  match es with
  | [] => O
  | (k', _) :: tl => if k' <? k then S (lower_bound tl k) else O
  end.

(** [es.upper_bound(k)]: the first position whose key is above [k]. *)
Fixpoint upper_bound (es : entries_t) (k : Z) : nat :=
  match es with
  | [] => O
  | (k', _) :: tl => if k' <=? k then S (upper_bound tl k) else O
  end.

(** [es.find(k)]: the position of key [k], [es.end()] when absent. *)
Fixpoint find_key (es : entries_t) (k : Z) : nat :=
  match es with
  | [] => O
  | (k', _) :: tl => if k' =? k then O else S (find_key tl k)
  end.

(** Modelled from the spec: [lowest_nomempty] of rgw_log_backing.h (not
    under src/), the position of the "lowest non-empty" entry, [es.end()]
    when every entry is empty. *)
Fixpoint lowest_nomempty (es : entries_t) : nat :=
  match es with
  | [] => O
  | (_, g) :: tl => if empty g then S (lowest_nomempty tl) else O
  end.

(** Dereference of the iterator at position [i]. *)
Definition deref (es : entries_t) (i : nat) : option (Z * logback_generation) :=
  nth_error es i.

(** [*(es.end() - 1)] *)
Definition back (es : entries_t) : option (Z * logback_generation) :=
  match es with
  | [] => None
  | _ => nth_error es (length es - 1)
  end.

(** Modelled from the spec: [obj_version] of cls_version (not under src/),
    "a pair (monotonic_counter, tag) ... Comparison is equality on the
    pair". *)
Record obj_version : Type := mk_version {
  ver : Z;
  tag : string
}.

Definition obj_version_eqb (a b : obj_version) : bool :=
  (ver a =? ver b) && String.eqb (tag a) (tag b).

(** [version.inc()] *)
Definition version_inc (v : obj_version) : obj_version :=
  mk_version (u64_succ (ver v)) (tag v).

(** The part of [rados::cls::fifo::info] that [log_remove] reads:
    the range of parts and [info.part_oid(j)], a part's object name. *)
Record fifo_info : Type := mk_info {
  tail_part_num : Z;
  head_part_num : Z;
  part_oid : Z -> string
}.

(** ** Calls into the environment *)

Inductive event : Type :=
| EvLog (msg : string)
| EvClsLogInfo (oid : string) (r : Z) (header_nonzero : bool)
| EvFifoOpen (oid : string) (r : Z) (opened : bool)
| EvFifoList (oid : string) (r : Z) (nonempty : bool)
| EvClsLogList (oid : string) (r : Z) (nonempty : bool)
| EvFifoCreate (oid : string) (r : Z)
| EvFifoGetMeta (oid : string) (r : Z) (info : fifo_info)
| EvRemove (oid : string) (r : Z)
| EvClearTruncate (oid : string) (r : Z)
| EvRead (oid : string) (held : obj_version) (r : Z)
         (v2 : obj_version) (body : expected entries_t)
| EvWrite (oid : string) (held : obj_version) (e : entries_t) (r : Z)
| EvCreate (oid : string) (v : obj_version) (e : entries_t) (r : Z)
| EvNotify (oid : string) (timeout_ms : Z) (r : Z)
| EvWatch (oid : string) (r : Z) (cookie : Z)
| EvRandAlpha (len : Z) (s : string)
| EvHandleInit (e : entries_t) (ec : error_code)
| EvHandleNewGens (e : entries_t) (ec : error_code)
| EvHandleEmptyTo (gen : Z) (ec : error_code).

(** The collaborators.  Each takes the call's arguments and the
    environment's state and gives the reply and the next state.  The body of
    the metadata object is kept as what [decode] makes of it: the entries,
    or the error [decode] throws. *)
Record Env (W : Type) : Type := mk_env {
  (* cls_log_info: the result and whether [header != cls_log_header{}] *)
  env_cls_log_info : string -> W -> Z * bool * W;
  (* FIFO::open(..., probe = true): the result and whether [fifo] was set *)
  env_fifo_open : string -> W -> Z * bool * W;
  (* fifo->list(1, ...): the result and [!entries.empty()] *)
  env_fifo_list : string -> W -> Z * bool * W;
  (* cls_log_list(..., 1, ...): the result and [!entries.empty()] *)
  env_cls_log_list : string -> W -> Z * bool * W;
  env_fifo_create : string -> W -> Z * W;
  env_fifo_get_meta : string -> W -> Z * fifo_info * W;
  (* op.remove() *)
  env_remove : string -> W -> Z * W;
  (* op.omap_set_header({}); op.omap_clear(); op.truncate(0) *)
  env_clear_truncate : string -> W -> Z * W;
  (* cls_version_check(GE); cls_version_read; op.read *)
  env_read : string -> obj_version -> W -> Z * obj_version * expected entries_t * W;
  (* cls_version_check(GE); op.write_full; cls_version_inc *)
  env_write : string -> obj_version -> entries_t -> W -> Z * W;
  (* op.create(true); cls_version_set; op.write_full *)
  env_create : string -> obj_version -> entries_t -> W -> Z * W;
  env_notify : string -> Z -> W -> Z * W;
  env_watch : string -> W -> Z * Z * W;
  env_rand_alpha : Z -> W -> string * W;
  env_handle_init : entries_t -> W -> error_code * W;
  env_handle_new_gens : entries_t -> W -> error_code * W;
  env_handle_empty_to : Z -> W -> error_code * W
}.

Arguments env_cls_log_info {W}.
Arguments env_fifo_open {W}.
Arguments env_fifo_list {W}.
Arguments env_cls_log_list {W}.
Arguments env_fifo_create {W}.
Arguments env_fifo_get_meta {W}.
Arguments env_remove {W}.
Arguments env_clear_truncate {W}.
Arguments env_read {W}.
Arguments env_write {W}.
Arguments env_create {W}.
Arguments env_notify {W}.
Arguments env_watch {W}.
Arguments env_rand_alpha {W}.
Arguments env_handle_init {W}.
Arguments env_handle_new_gens {W}.
Arguments env_handle_empty_to {W}.

(** ** The monad of runs *)

(** A run from environment state [w]: the value, the next state, and the
    calls made, in order. *)
Definition IO (W A : Type) : Type := W -> A * W * list event.

Definition ret {W A : Type} (a : A) : IO W A := fun w => (a, w, []).

Definition bind {W A B : Type} (m : IO W A) (k : A -> IO W B) : IO W B :=
  fun w =>
    let '(a, w1, t1) := m w in
    let '(b, w2, t2) := k a w1 in
    (b, w2, t1 ++ t2).

Notation "x <- m ;; k" := (bind m (fun x => k))
  (at level 61, m at next level, right associativity).
Notation "' pat <- m ;; k" :=
  (bind m (fun x => match x with pat => k end))
  (at level 61, pat pattern, m at next level, right associativity).
Notation "m ;;; k" := (bind m (fun _ => k))
  (at level 61, right associativity).

(** [lderr(cct) << ...] and [ldout(cct, 5) << ...] *)
Definition lderr {W : Type} (msg : string) : IO W unit :=
  fun w => (tt, w, [EvLog msg]).

Section Model.

Context {W : Type}.
Variable env : Env W.

Definition cls_log_info (oid : string) : IO W (Z * bool) :=
  fun w => let '(r, h, w') := env_cls_log_info env oid w in
           ((r, h), w', [EvClsLogInfo oid r h]).

Definition fifo_open (oid : string) : IO W (Z * bool) :=
  fun w => let '(r, f, w') := env_fifo_open env oid w in
           ((r, f), w', [EvFifoOpen oid r f]).

Definition fifo_list (oid : string) : IO W (Z * bool) :=
  fun w => let '(r, ne, w') := env_fifo_list env oid w in
           ((r, ne), w', [EvFifoList oid r ne]).

Definition cls_log_list (oid : string) : IO W (Z * bool) :=
  fun w => let '(r, ne, w') := env_cls_log_list env oid w in
           ((r, ne), w', [EvClsLogList oid r ne]).

Definition fifo_create (oid : string) : IO W Z :=
  fun w => let '(r, w') := env_fifo_create env oid w in
           (r, w', [EvFifoCreate oid r]).

Definition fifo_get_meta (oid : string) : IO W (Z * fifo_info) :=
  fun w => let '(r, info, w') := env_fifo_get_meta env oid w in
           ((r, info), w', [EvFifoGetMeta oid r info]).

Definition rados_remove (oid : string) : IO W Z :=
  fun w => let '(r, w') := env_remove env oid w in
           (r, w', [EvRemove oid r]).

Definition rados_clear_truncate (oid : string) : IO W Z :=
  fun w => let '(r, w') := env_clear_truncate env oid w in
           (r, w', [EvClearTruncate oid r]).

Definition rados_read (oid : string) (held : obj_version)
  : IO W (Z * obj_version * expected entries_t) :=
  fun w => let '(r, v2, body, w') := env_read env oid held w in
           ((r, v2, body), w', [EvRead oid held r v2 body]).

Definition rados_write (oid : string) (held : obj_version) (e : entries_t) : IO W Z :=
  fun w => let '(r, w') := env_write env oid held e w in
           (r, w', [EvWrite oid held e r]).

Definition rados_create (oid : string) (v : obj_version) (e : entries_t) : IO W Z :=
  fun w => let '(r, w') := env_create env oid v e w in
           (r, w', [EvCreate oid v e r]).

Definition rgw_rados_notify (oid : string) (timeout_ms : Z) : IO W Z :=
  fun w => let '(r, w') := env_notify env oid timeout_ms w in
           (r, w', [EvNotify oid timeout_ms r]).

Definition watch2 (oid : string) : IO W (Z * Z) :=
  fun w => let '(r, c, w') := env_watch env oid w in
           ((r, c), w', [EvWatch oid r c]).

Definition append_rand_alpha (len : Z) : IO W string :=
  fun w => let '(s, w') := env_rand_alpha env len w in
           (s, w', [EvRandAlpha len s]).

Definition handle_init (e : entries_t) : IO W error_code :=
  fun w => let '(ec, w') := env_handle_init env e w in
           (ec, w', [EvHandleInit e ec]).

Definition handle_new_gens (e : entries_t) : IO W error_code :=
  fun w => let '(ec, w') := env_handle_new_gens env e w in
           (ec, w', [EvHandleNewGens e ec]).

Definition handle_empty_to (gen : Z) : IO W error_code :=
  fun w => let '(ec, w') := env_handle_empty_to env gen w in
           (ec, w', [EvHandleEmptyTo gen ec]).

(** ** Shard probing *)

(** Return the shard type, and a bool to see whether it has entries. *)
Definition probe_shard (oid : string) : IO W (shard_check.t * bool) :=
  '(r, header_nonzero) <- cls_log_info oid ;;
  if r =? - ENOENT then ret (shard_check.dne, false)
  else if r <? 0 then
    lderr "error probing for omap" ;;;
    ret (shard_check.corrupt, false)
  else
    let omap := header_nonzero in
    '(r, fifo) <- fifo_open oid ;;
    if (r <? 0) && negb ((r =? - ENOENT) || (r =? - ENODATA)) then
      lderr "error probing for fifo" ;;;
      ret (shard_check.corrupt, false)
    else if fifo && omap then
      lderr "fifo and omap found" ;;;
      ret (shard_check.corrupt, false)
    else if fifo then
      '(r, nonempty) <- fifo_list oid ;;
      if r <? 0 then
        lderr "unable to list entries" ;;;
        ret (shard_check.corrupt, false)
      else ret (shard_check.fifo, nonempty)
    else if omap then
      '(r, nonempty) <- cls_log_list oid ;;
      if r <? 0 then
        lderr "failed to list" ;;;
        ret (shard_check.corrupt, false)
      else ret (shard_check.omap, nonempty)
    else
      (* An object exists, but has never had FIFO or cls_log entries
         written to it. *)
      ret (shard_check.dne, false).

Definition handle_dne (def : log_type.t) (oid : string) : IO W (expected log_type.t) :=
  match def with
  | log_type.fifo =>
      r <- fifo_create oid ;;
      if r <? 0 then
        lderr "error creating FIFO" ;;;
        ret (Unexpected (- r))
      else ret (Expected def)
  | log_type.omap => ret (Expected def)
  end.

(** The [for] loop of [log_backing_type], from shard [i] with [n] shards
    left: the error it returns from, or [check] at its end. *)
Fixpoint log_backing_type_loop (get_oid : Z -> string) (n : nat) (i : Z)
    (check : shard_check.t) : IO W (expected shard_check.t) :=
  match n with
  | O => ret (Expected check)
  | S n' =>
      '(c, e) <- probe_shard (get_oid i) ;;
      if shard_check.eqb c shard_check.corrupt then ret (Unexpected EIO)
      else if shard_check.eqb c shard_check.dne then
        log_backing_type_loop get_oid n' (i + 1) check
      else if shard_check.eqb check shard_check.dne then
        log_backing_type_loop get_oid n' (i + 1) c
      else if negb (shard_check.eqb check c) then
        lderr "clashing types" ;;;
        ret (Unexpected EIO)
      else log_backing_type_loop get_oid n' (i + 1) check
  end.

Definition log_backing_type (def : log_type.t) (shards : Z)
    (get_oid : Z -> string) : IO W (expected log_type.t) :=
  res <- log_backing_type_loop get_oid (Z.to_nat shards) 0 shard_check.dne ;;
  match res with
  | Unexpected ec => ret (Unexpected ec)
  | Expected check =>
      if shard_check.eqb check shard_check.corrupt then
        lderr "should be unreachable!" ;;;
        ret (Unexpected EIO)
      else if shard_check.eqb check shard_check.dne then
        handle_dne def (get_oid 0)
      else
        ret (Expected (if shard_check.eqb check shard_check.fifo
                       then log_type.fifo else log_type.omap))
  end.

(** ** Generation removal *)

(** [if (!ec) ec = bs::error_code(-r, bs::system_category())] *)
Definition first_error (ec : error_code) (r : Z) : error_code :=
  if failed ec then ec else - r.

(** The inner [for] of [log_remove] over the parts, [n] of them left. *)
Fixpoint remove_parts (info : fifo_info) (n : nat) (j : Z) (ec : error_code)
  : IO W error_code :=
  match n with
  | O => ret ec
  | S n' =>
      subr <- rados_remove (part_oid info j) ;;
      if (subr <? 0) && negb (subr =? - ENOENT) then
        lderr "failed removing FIFO part" ;;;
        remove_parts info n' (j + 1) (first_error ec subr)
      else remove_parts info n' (j + 1) ec
  end.

(** One round of the outer [for] of [log_remove], on shard [i]. *)
Definition log_remove_shard (get_oid : Z -> string) (leave_zero : bool)
    (i : Z) (ec : error_code) : IO W error_code :=
  let oid := get_oid i in
  '(r, info) <- fifo_get_meta oid ;;
  if r =? - ENOENT then ret ec (* continue *)
  else
    ec <- (if (r =? 0) && (-1 <? head_part_num info) then
             remove_parts info
               (Z.to_nat (head_part_num info - tail_part_num info + 1))
               (tail_part_num info) ec
           else ret ec) ;;
    ec <- (if (r <? 0) && negb (r =? - ENODATA) then
             lderr "failed checking FIFO part" ;;;
             ret (first_error ec r)
           else ret ec) ;;
    r <- (if (i =? 0) && leave_zero then
            (* Leave shard 0 in existence, but remove contents and omap. *)
            rados_clear_truncate oid
          else rados_remove oid) ;;
    if (r <? 0) && negb (r =? - ENOENT) then
      lderr "failed removing shard" ;;;
      ret (first_error ec r)
    else ret ec.

Fixpoint log_remove_loop (get_oid : Z -> string) (leave_zero : bool)
    (n : nat) (i : Z) (ec : error_code) : IO W error_code :=
  match n with
  | O => ret ec
  | S n' =>
      ec <- log_remove_shard get_oid leave_zero i ec ;;
      log_remove_loop get_oid leave_zero n' (i + 1) ec
  end.

Definition log_remove (shards : Z) (get_oid : Z -> string) (leave_zero : bool)
  : IO W error_code :=
  log_remove_loop get_oid leave_zero (Z.to_nat shards) 0 0.

(** ** The generation manager *)

(** The mutable members of [logback_generations]. *)
Record logback_generations : Type := mk_mgr {
  entries_ : entries_t;
  version : obj_version;
  watchcookie : Z
}.

Definition max_tries : Z := 10.

(** How a retry loop is left: by a [return] in its body, or by its
    condition, with the locals [ec], [tries] and the loop's own. *)
Inductive loop_exit (L : Type) : Type :=
| Returned (oc : outcome)
| Left (ec : error_code) (tries : Z) (l : L).
Arguments Returned {L} oc.
Arguments Left {L} ec tries l.

Section Manager.

(** The constant members. *)
Variable oid : string.
Variable get_oid : Z -> Z -> string.
Variable shards : Z.

Definition read (s : logback_generations)
  : IO W (expected (entries_t * obj_version)) :=
  '(r, v2, body) <- rados_read oid (version s) ;;
  if r <? 0 then
    (if r =? - ENOENT then lderr "not found" else lderr "failed reading") ;;;
    ret (Unexpected (- r))
  else
    match body with
    | Unexpected ec => ret (Unexpected ec)
    | Expected e => ret (Expected (e, v2))
    end.

Definition update (s : logback_generations)
  : IO W (outcome * logback_generations) :=
  res <- read s ;;
  match res with
  | Unexpected ec => ret (Ret ec, s)
  | Expected (es, v) =>
    if obj_version_eqb v (version s) then
      (* Nothing to do! *)
      ret (Ret 0, s)
    else
    (* Check consistency and prepare update *)
    match es with
    | [] =>
      lderr "INCONSISTENCY! Read empty update." ;;;
      ret (Ret EFAULT, s)
    | _ :: _ =>
    let cur_lowest := lowest_nomempty (entries_ s) in
    match deref (entries_ s) cur_lowest with
    | None =>
      (* assert(cur_lowest != entries_.cend()) *)
      ret (Abort, s)
    | Some (cur_first, _) =>
    let new_lowest := lowest_nomempty es in
    match deref es new_lowest with
    | None =>
      (* new_lowest == es.cend() *)
      lderr "INCONSISTENCY! Read update with no active head." ;;;
      ret (Ret EFAULT, s)
    | Some (new_first, _) =>
    if new_first <? cur_first then
      lderr "INCONSISTENCY! Tail moved wrong way." ;;;
      ret (Ret EFAULT, s)
    else
    let highest_empty :=
      if (cur_first <? new_first) && negb (Nat.eqb new_lowest O)
      then option_map fst (deref es (new_lowest - 1))
      else None in
    match back es, back (entries_ s) with
    | Some (es_last, _), Some (cur_last, _) =>
      if es_last <? cur_last then
        lderr "INCONSISTENCY! Head moved wrong way." ;;;
        ret (Ret EFAULT, s)
      else
      let new_entries :=
        if cur_last <? es_last
        then skipn (lower_bound es (u64_succ cur_last)) es
        else [] in
      (* Everything checks out! *)
      let s' := mk_mgr es v (watchcookie s) in
      let announce_new :=
        match new_entries with
        | [] => ret (Ret 0, s')
        | _ :: _ =>
            ec <- handle_new_gens new_entries ;;
            if failed ec then ret (Ret ec, s') else ret (Ret 0, s')
        end in
      match highest_empty with
      | Some h =>
          ec <- handle_empty_to h ;;
          if failed ec then ret (Ret ec, s') else announce_new
      | None => announce_new
      end
    | _, _ => ret (Abort, s)
    end
    end
    end
    end
  end.

Definition write (e : entries_t) (s : logback_generations)
  : IO W (outcome * logback_generations) :=
  r <- rados_write oid (version s) e ;;
  if r =? 0 then
    ret (Ret 0, mk_mgr e (version_inc (version s)) (watchcookie s))
  else if (r <? 0) && negb (r =? - ECANCELED) then
    lderr "failed reading" ;;;
    ret (Ret (- r), s)
  else if r =? - ECANCELED then
    '(oc, s') <- update s ;;
    match oc with
    | Abort => ret (Abort, s')
    | Ret ec => if failed ec then ret (Ret ec, s') else ret (Ret ECANCELED, s')
    end
  else ret (Ret 0, s).

Definition watch (s : logback_generations)
  : IO W (error_code * logback_generations) :=
  '(r, cookie) <- watch2 oid ;;
  let s' := mk_mgr (entries_ s) (version s) cookie in
  if r <? 0 then
    lderr "failed to set watch" ;;;
    ret (- r, s')
  else ret (0, s').

(** The end of [setup], from "Pass all non-empty generations to the
    handler". *)
Definition setup_deliver (s : logback_generations)
  : IO W (error_code * logback_generations) :=
  let i := lowest_nomempty (entries_ s) in
  let e := skipn i (entries_ s) in
  '(ec, s') <- watch s ;;
  (if failed ec then
     lderr "failed to re-establish watch, unsafe to continue"
   else ret tt) ;;;
  ec <- handle_init e ;;
  ret (ec, s').

(** The start of [setup]: the state to continue with, or the error it
    returns. *)
Definition setup_load (def : log_type.t) (s : logback_generations)
  : IO W (expected logback_generations * logback_generations) :=
  (* First, read. *)
  res <- read s ;;
  match res with
  | Expected (e, v) =>
      let s' := mk_mgr e v (watchcookie s) in ret (Expected s', s')
  | Unexpected ec =>
    if negb (ec =? ENOENT) then ret (Unexpected ec, s)
    else
    (* Are we the first? Then create generation 0 and the generations
       metadata. *)
    ty <- log_backing_type def shards (get_oid 0) ;;
    match ty with
    | Unexpected ec => ret (Unexpected ec, s)
    | Expected ty =>
      let l := mk_gen 0 ty false in
      tg <- append_rand_alpha 24 ;;
      let v := mk_version 1 tg in
      let es := emplace 0 l (entries_ s) in
      let s1 := mk_mgr es v (watchcookie s) in
      r <- rados_create oid v es ;;
      (if (r <? 0) && negb (r =? - EEXIST) then lderr "failed writing"
       else ret tt) ;;;
      (* Did someone race us? Then re-read. *)
      if negb (r =? 0) then
        res <- read s1 ;;
        match res with
        | Unexpected ec => ret (Unexpected ec, s1)
        | Expected ([], _) => ret (Unexpected EIO, s1)
        | Expected (((_, l) :: _) as e, v) =>
            ec <- (if negb (gen_id l =? 0)
                   then log_remove shards (get_oid 0) true
                   else ret 0) ;;
            if failed ec then ret (Unexpected ec, s1)
            else let s2 := mk_mgr e v (watchcookie s) in ret (Expected s2, s2)
        end
      else ret (Expected s1, s1)
    end
  end.

Definition setup (def : log_type.t) (s : logback_generations)
  : IO W (error_code * logback_generations) :=
  '(loaded, s) <- setup_load def s ;;
  match loaded with
  | Unexpected ec => ret (ec, s)
  | Expected s => setup_deliver s
  end.

(** The [do ... while] of [new_backing]; [new_entries] is declared before
    the loop and lives across its rounds.  [fuel] bounds the rounds for the
    recursion only: the loop's own condition is the test on [tries]. *)
Fixpoint new_backing_loop (fuel : nat) (ty : log_type.t) (tries : Z)
    (new_entries : entries_t) (s : logback_generations)
  : IO W (loop_exit entries_t * logback_generations) :=
  match back (entries_ s) with
  | None => ret (Returned Abort, s)
  | Some (last_first, last_second) =>
    if log_type.eqb (type last_second) ty then
      (* Nothing to be done *)
      ret (Returned (Ret 0), s)
    else
    let newgenid := u64_succ last_first in
    let newgen := mk_gen newgenid ty false in
    let new_entries := emplace newgenid newgen new_entries in
    let es := emplace newgenid newgen (entries_ s) in
    '(oc, s') <- write es s ;;
    match oc with
    | Abort => ret (Returned Abort, s')
    | Ret ec =>
      let tries := tries + 1 in
      if is_canceled ec && (tries <? max_tries) then
        match fuel with
        | S fuel' => new_backing_loop fuel' ty tries new_entries s'
        | O => ret (Left ec tries new_entries, s')
        end
      else ret (Left ec tries new_entries, s')
    end
  end.

Definition new_backing (ty : log_type.t) (s : logback_generations)
  : IO W (outcome * logback_generations) :=
  '(oc, s) <- update s ;;
  match oc with
  | Abort => ret (Abort, s)
  | Ret ec =>
    if failed ec then ret (Ret ec, s)
    else
    '(ex, s) <- new_backing_loop (Z.to_nat max_tries) ty 0 [] s ;;
    match ex with
    | Returned oc => ret (oc, s)
    | Left ec tries new_entries =>
      if max_tries <=? tries then
        lderr "exhausted retry attempts." ;;;
        ret (Ret ec, s)
      else if failed ec then
        lderr "write failed" ;;;
        ret (Ret ec, s)
      else
        r <- rgw_rados_notify oid 10000 ;;
        if r <? 0 then
          lderr "notify failed" ;;;
          ret (Ret (- r), s)
        else
          _ <- handle_new_gens new_entries ;;
          ret (Ret 0, s)
    end
  end.

(** The [for] of [empty_to] over [es.begin(), ei): every entry passed is
    marked empty and its key becomes [newtail]. *)
Fixpoint mark_empty (n : nat) (es : entries_t) (newtail : Z) : entries_t * Z :=
  match n, es with
  | S n', (k, g) :: tl =>
      let '(tl', nt) := mark_empty n' tl k in
      ((k, mk_gen (gen_id g) (type g) true) :: tl', nt)
  | _, _ => (es, newtail)
  end.

Fixpoint empty_to_loop (fuel : nat) (gen : Z) (tries : Z) (newtail : Z)
    (s : logback_generations)
  : IO W (loop_exit Z * logback_generations) :=
  match back (entries_ s) with
  | None => ret (Returned Abort, s)
  | Some (last_first, _) =>
    if last_first <=? gen then
      lderr "Attempt to trim beyond the possible." ;;;
      ret (Returned (Ret EINVAL), s)
    else
    let es := entries_ s in
    let ei := upper_bound es gen in
    if Nat.eqb ei O then
      (* Nothing to be done. *)
      ret (Returned (Ret 0), s)
    else
    let '(es, newtail) := mark_empty ei es newtail in
    '(oc, s') <- write es s ;;
    match oc with
    | Abort => ret (Returned Abort, s')
    | Ret ec =>
      let tries := tries + 1 in
      if is_canceled ec && (tries <? max_tries) then
        match fuel with
        | S fuel' => empty_to_loop fuel' gen tries newtail s'
        | O => ret (Left ec tries newtail, s')
        end
      else ret (Left ec tries newtail, s')
    end
  end.

Definition empty_to (gen : Z) (s : logback_generations)
  : IO W (outcome * logback_generations) :=
  '(oc, s) <- update s ;;
  match oc with
  | Abort => ret (Abort, s)
  | Ret ec =>
    if failed ec then ret (Ret ec, s)
    else
    '(ex, s) <- empty_to_loop (Z.to_nat max_tries) gen 0 0 s ;;
    match ex with
    | Returned oc => ret (oc, s)
    | Left ec tries newtail =>
      if max_tries <=? tries then
        lderr "exhausted retry attempts." ;;;
        ret (Ret ec, s)
      else if failed ec then
        lderr "write failed" ;;;
        ret (Ret ec, s)
      else
        r <- rgw_rados_notify oid 10000 ;;
        if r <? 0 then
          lderr "notify failed" ;;;
          ret (Ret (- r), s)
        else
          _ <- handle_empty_to newtail ;;
          ret (Ret 0, s)
    end
  end.

(** The range-[for] of [remove_empty] over [es]: the outcome it returns
    with, if it does. *)
Fixpoint remove_gens (es : entries_t) : IO W (option outcome) :=
  match es with
  | [] => ret None
  | (gen, e) :: tl =>
      if negb (empty e) then
        (* ceph_assert(e.empty) *)
        ret (Some Abort)
      else
        ec <- log_remove shards (get_oid gen) (gen =? 0) ;;
        if failed ec then ret (Some (Ret ec)) else remove_gens tl
  end.

(** The [do ... while] of [remove_empty].  [es] is declared before the loop
    and is what the last round passed to [write] (which moves from it only
    when it succeeds); [l] too is declared before the loop, and
    [l_has_mutex] is whether it still refers to the mutex: [write] moves
    from it, and [lock()] on such a lock throws [std::system_error] out of
    the [noexcept] function. *)
Fixpoint remove_empty_loop (fuel : nat) (ln : Z) (tries : Z)
    (es : entries_t) (l_has_mutex : bool) (s : logback_generations)
  : IO W (loop_exit entries_t * logback_generations) :=
  stopped <- remove_gens es ;;
  match stopped with
  | Some oc => ret (Returned oc, s)
  | None =>
    if negb l_has_mutex then ret (Returned Abort, s)
    else
    let i := find_key (entries_ s) ln in
    let es := skipn i (entries_ s) in
    '(oc, s') <- write es s ;;
    match oc with
    | Abort => ret (Returned Abort, s')
    | Ret ec =>
      let tries := tries + 1 in
      if is_canceled ec && (tries <? max_tries) then
        match fuel with
        | S fuel' => remove_empty_loop fuel' ln tries es false s'
        | O => ret (Left ec tries es, s')
        end
      else ret (Left ec tries es, s')
    end
  end.

Definition remove_empty (s : logback_generations)
  : IO W (outcome * logback_generations) :=
  '(oc, s) <- update s ;;
  match oc with
  | Abort => ret (Abort, s)
  | Ret ec =>
    if failed ec then ret (Ret ec, s)
    else
    match entries_ s with
    | [] =>
      (* ceph_assert(!entries_.empty()) *)
      ret (Abort, s)
    | _ :: _ =>
    let i := lowest_nomempty (entries_ s) in
    if Nat.eqb i O then ret (Ret 0, s)
    else
    match deref (entries_ s) i with
    | None =>
      (* i->first at entries_.end() *)
      ret (Abort, s)
    | Some (ln, _) =>
    let es := firstn i (entries_ s) in
    '(ex, s) <- remove_empty_loop (Z.to_nat max_tries) ln 0 es true s ;;
    match ex with
    | Returned oc => ret (oc, s)
    | Left ec tries _ =>
      if max_tries <=? tries then
        lderr "exhausted retry attempts." ;;;
        ret (Ret ec, s)
      else if failed ec then
        lderr "write failed" ;;;
        ret (Ret ec, s)
      else ret (Ret 0, s)
    end
    end
    end
  end.

End Manager.

End Model.

Arguments Returned {L} oc.
Arguments Left {L} ec tries l.

(** ** Reading a run *)

Definition value {W A : Type} (run : A * W * list event) : A := fst (fst run).
Definition world {W A : Type} (run : A * W * list event) : W := snd (fst run).
Definition trace {W A : Type} (run : A * W * list event) : list event := snd run.

(** Calls that change an object of the store. *)
Definition is_store_write (e : event) : bool :=
  match e with
  | EvFifoCreate _ _ | EvRemove _ _ | EvClearTruncate _ _
  | EvWrite _ _ _ _ | EvCreate _ _ _ _ => true
  | _ => false
  end.

Definition is_notify (e : event) : bool :=
  match e with
  | EvNotify _ _ _ => true
  | _ => false
  end.

(** Calls of the consumer's [handle_*]. *)
Definition is_callback (e : event) : bool :=
  match e with
  | EvHandleInit _ _ | EvHandleNewGens _ _ | EvHandleEmptyTo _ _ => true
  | _ => false
  end.

(** ** A scripted environment

    Its state is the list of replies still to give; a call takes the next
    one and reads the fields it needs; past the script every call
    succeeds with nothing to report. *)

Record reply : Type := mk_reply {
  rp_r : Z;
  rp_flag : bool;
  rp_ver : obj_version;
  rp_body : expected entries_t;
  rp_info : fifo_info;
  rp_str : string
}.

Definition no_info : fifo_info := mk_info 0 (-1) (fun _ => "").

Definition reply_ok : reply :=
  mk_reply 0 false (mk_version 0 "") (Expected []) no_info "".

(** A reply that is a result code only. *)
Definition rc (r : Z) : reply :=
  mk_reply r false (mk_version 0 "") (Expected []) no_info "".

(** A result code and a flag (header non-zero, fifo opened, list
    non-empty). *)
Definition rflag (r : Z) (b : bool) : reply :=
  mk_reply r b (mk_version 0 "") (Expected []) no_info "".

(** A successful read of the metadata object. *)
Definition rread (v : obj_version) (e : entries_t) : reply :=
  mk_reply 0 false v (Expected e) no_info "".

Definition rmeta (r : Z) (info : fifo_info) : reply :=
  mk_reply r false (mk_version 0 "") (Expected []) info "".

Definition next (w : list reply) : reply * list reply :=
  match w with
  | [] => (reply_ok, [])
  | p :: tl => (p, tl)
  end.

Definition scripted : Env (list reply) :=
  let code := fun w => let (p, w') := next w in (rp_r p, w') in
  let flagged := fun w => let (p, w') := next w in (rp_r p, rp_flag p, w') in
  {| env_cls_log_info := fun _ => flagged;
     env_fifo_open := fun _ => flagged;
     env_fifo_list := fun _ => flagged;
     env_cls_log_list := fun _ => flagged;
     env_fifo_create := fun _ => code;
     env_fifo_get_meta :=
       fun _ w => let (p, w') := next w in (rp_r p, rp_info p, w');
     env_remove := fun _ => code;
     env_clear_truncate := fun _ => code;
     env_read :=
       fun _ _ w => let (p, w') := next w in (rp_r p, rp_ver p, rp_body p, w');
     env_write := fun _ _ _ => code;
     env_create := fun _ _ _ => code;
     env_notify := fun _ _ => code;
     env_watch := fun _ w => let (p, w') := next w in (rp_r p, 1, w');
     env_rand_alpha := fun _ w => let (p, w') := next w in (rp_str p, w');
     env_handle_init := fun _ => code;
     env_handle_new_gens := fun _ => code;
     env_handle_empty_to := fun _ => code |}.

(** An environment without state: every call gets the reply [p]. *)
Definition steady (p : reply) : Env unit :=
  {| env_cls_log_info := fun _ w => (rp_r p, rp_flag p, w);
     env_fifo_open := fun _ w => (rp_r p, rp_flag p, w);
     env_fifo_list := fun _ w => (rp_r p, rp_flag p, w);
     env_cls_log_list := fun _ w => (rp_r p, rp_flag p, w);
     env_fifo_create := fun _ w => (rp_r p, w);
     env_fifo_get_meta := fun _ w => (rp_r p, rp_info p, w);
     env_remove := fun _ w => (rp_r p, w);
     env_clear_truncate := fun _ w => (rp_r p, w);
     env_read := fun _ _ w => (rp_r p, rp_ver p, rp_body p, w);
     env_write := fun _ _ _ w => (rp_r p, w);
     env_create := fun _ _ _ w => (rp_r p, w);
     env_notify := fun _ _ w => (rp_r p, w);
     env_watch := fun _ w => (rp_r p, 1, w);
     env_rand_alpha := fun _ w => (rp_str p, w);
     env_handle_init := fun _ w => (rp_r p, w);
     env_handle_new_gens := fun _ w => (rp_r p, w);
     env_handle_empty_to := fun _ w => (rp_r p, w) |}.

(** Names for the examples. *)
Definition meta_oid : string := "generations_metadata".
Definition shard_oid (gen shard : Z) : string :=
  (if gen =? 0 then "gen0" else "genN") ++ (if shard =? 0 then ".0" else ".n").

Definition gen (k : Z) (ty : log_type.t) (e : bool) : Z * logback_generation :=
  (k, mk_gen k ty e).

Definition v_at (n : Z) : obj_version := mk_version n "tag".

(** * What the claims speak of *)

(** ** Traces of [log_remove] *)

(** The result code of a call made by [log_remove], and whether the call
    is the probe for FIFO metadata. *)
Definition store_result (e : event) : option (bool * Z) :=
  match e with
  | EvFifoGetMeta _ r _ => Some (true, r)
  | EvRemove _ r | EvClearTruncate _ r => Some (false, r)
  | _ => None
  end.

(** The first error of a trace when "no such object" alone is ignored;
    success if there is none. *)
Fixpoint first_error_but_enoent (t : list event) : error_code :=
  match t with
  | [] => 0
  | e :: tl =>
      match store_result e with
      | Some (_, r) =>
          if (r <? 0) && negb (r =? - ENOENT) then - r
          else first_error_but_enoent tl
      | None => first_error_but_enoent tl
      end
  end.

(** The first error of a trace when "no such object" is ignored and so is
    "no data" from the probe for FIFO metadata; success if there is none. *)
Fixpoint first_error_kept (t : list event) : error_code :=
  match t with
  | [] => 0
  | e :: tl =>
      match store_result e with
      | Some (probe, r) =>
          if (r <? 0) && negb (r =? - ENOENT)
             && negb (probe && (r =? - ENODATA))
          then - r
          else first_error_kept tl
      | None => first_error_kept tl
      end
  end.

(** The error kept so far, or else the first one of what follows. *)
Definition first_error_from (ec : error_code) (t : list event) : error_code :=
  if failed ec then ec else first_error_kept t.

(** The removals of [n] parts of [info] from part [j] on, a failed one
    followed by its log line. *)
Inductive parts_trace (info : fifo_info) : nat -> Z -> list event -> Prop :=
| parts_none j : parts_trace info O j []
| parts_removed n j r t :
    (r <? 0) && negb (r =? - ENOENT) = false ->
    parts_trace info n (j + 1) t ->
    parts_trace info (S n) j (EvRemove (part_oid info j) r :: t)
| parts_failed n j r msg t :
    (r <? 0) && negb (r =? - ENOENT) = true ->
    parts_trace info n (j + 1) t ->
    parts_trace info (S n) j (EvRemove (part_oid info j) r :: EvLog msg :: t).

Definition only_logs (t : list event) : Prop :=
  Forall (fun e => exists msg, e = EvLog msg) t.

(** What is done to the shard object itself. *)
Definition shard_op (get_oid : Z -> string) (leave_zero : bool) (i r : Z)
  : event :=
  if (i =? 0) && leave_zero then EvClearTruncate (get_oid i) r
  else EvRemove (get_oid i) r.

(** The parts in the range of [info], when the probe found a FIFO. *)
Definition parts_of (r : Z) (info : fifo_info) : nat :=
  if (r =? 0) && (-1 <? head_part_num info)
  then Z.to_nat (head_part_num info - tail_part_num info + 1)
  else O.

(** The calls for shard [i]: the probe alone when it says "no such
    object"; else the probe, the removal of the parts, and the removal of
    the object or, for shard 0 under [leave_zero], its clearing. *)
Inductive shard_trace (get_oid : Z -> string) (leave_zero : bool) (i : Z)
  : list event -> Prop :=
| shard_absent info :
    shard_trace get_oid leave_zero i
      [EvFifoGetMeta (get_oid i) (- ENOENT) info]
| shard_present r info ps l1 r2 l2 :
    r <> - ENOENT ->
    parts_trace info (parts_of r info) (tail_part_num info) ps ->
    only_logs l1 -> only_logs l2 ->
    shard_trace get_oid leave_zero i
      (EvFifoGetMeta (get_oid i) r info
         :: ps ++ l1 ++ shard_op get_oid leave_zero i r2 :: l2).

(** The calls for [n] shards from shard [i] on, one after the other. *)
Inductive shards_trace (get_oid : Z -> string) (leave_zero : bool)
  : nat -> Z -> list event -> Prop :=
| shards_done i : shards_trace get_oid leave_zero O i []
| shards_next n i t1 t2 :
    shard_trace get_oid leave_zero i t1 ->
    shards_trace get_oid leave_zero n (i + 1) t2 ->
    shards_trace get_oid leave_zero (S n) i (t1 ++ t2).

(** The calls [log_remove] may make: probes for FIFO metadata, removals,
    log lines, and the clearing of shard 0's object under [leave_zero]. *)
Definition log_remove_call (get_oid : Z -> string) (leave_zero : bool)
    (e : event) : Prop :=
  match e with
  | EvLog _ | EvFifoGetMeta _ _ _ | EvRemove _ _ => True
  | EvClearTruncate oid _ => leave_zero = true /\ oid = get_oid 0
  | _ => False
  end.

Definition is_clear (e : event) : bool :=
  match e with
  | EvClearTruncate _ _ => true
  | _ => false
  end.

(** ** Entries maps *)

(** The keys are [uint64_t] values. *)
Definition u64_keys (es : entries_t) : bool :=
  forallb (fun e => (0 <=? fst e) && (fst e <? uint64_max)) es.

(** Keys without a gap. *)
Fixpoint dense (es : entries_t) : bool :=
  match es with
  | (k, _) :: (((k', _) :: _) as tl) => (k' =? k + 1) && dense tl
  | _ => true
  end.

(** The key of the lowest non-empty entry, if there is one. *)
Definition lowest_nonempty_key (es : entries_t) : option Z :=
  option_map fst (deref es (lowest_nomempty es)).

(** The key of the last entry, the maximum key of the map. *)
Definition max_key (es : entries_t) : option Z := option_map fst (back es).

(** The entries below the lowest non-empty one. *)
Definition empty_prefix (es : entries_t) : entries_t :=
  firstn (lowest_nomempty es) es.

(** The highest key below the lowest non-empty entry, if there is one. *)
Definition highest_empty_key (es : entries_t) : option Z :=
  max_key (empty_prefix es).

(** The entries with a key above [k]. *)
Definition entries_above (k : Z) (es : entries_t) : entries_t :=
  filter (fun e => k <? fst e) es.

Definition below (a b : option Z) : bool :=
  match a, b with
  | Some x, Some y => x <? y
  | _, _ => false
  end.

(** What [update] must refuse, in the words of the specification: the
    map read is empty, or has no non-empty entry, or its lowest non-empty
    key is below the current one, or its maximum key is below the current
    one. *)
Definition inconsistent (es cur : entries_t) : bool :=
  match es with
  | [] => true
  | _ :: _ =>
      match lowest_nonempty_key es with
      | None => true
      | Some _ =>
          below (lowest_nonempty_key es) (lowest_nonempty_key cur)
          || below (max_key es) (max_key cur)
      end
  end.

(** The result codes of the CAS writes of a trace, in order. *)
Fixpoint write_results (t : list event) : list Z :=
  match t with
  | [] => []
  | EvWrite _ _ _ r :: tl => r :: write_results tl
  | _ :: tl => write_results tl
  end.

(** How a retry loop entered with [tries0] was left by its condition,
    with [ec] and [tries], after the calls [t]: every CAS
    write but the last was canceled; [tries] is at most [max_tries]; and
    when [ec] is "canceled" the last write was canceled too and [tries] is
    [max_tries]. *)
Definition left_after (tries0 : Z) (t : list event) (ec : error_code)
    (tries : Z) : Prop :=
  tries0 < tries <= max_tries /\
  (exists r,
      write_results t
      = repeat (- ECANCELED) (Z.to_nat (tries - tries0 - 1)) ++ [r] /\
      (is_canceled ec = true -> r = - ECANCELED)) /\
  (is_canceled ec = true -> tries = max_tries).

Section Reading.

Context {W : Type}.
Variable env : Env W.

(** Both kinds of evidence on [oid] when probed in state [w]: the cls_log
    header is read and is not the zero header, and opening the object as a
    FIFO hands back a FIFO. *)
Definition fifo_and_omap_evidence (oid : string) (w : W) : bool :=
  let '(r1, header_nonzero, w1) := env_cls_log_info env oid w in
  let '(r2, opened, _) := env_fifo_open env oid w1 in
  (0 <=? r1) && header_nonzero && opened.

(** Every shard probed by a run of [log_backing_type] from state [w]
    classifies as absent: [n] shards from shard [i] on. *)
Fixpoint all_absent (get_oid : Z -> string) (n : nat) (i : Z) (w : W) : bool :=
  match n with
  | O => true
  | S n' =>
      let run := probe_shard env (get_oid i) w in
      shard_check.eqb (fst (value run)) shard_check.dne
      && all_absent get_oid n' (i + 1) (world run)
  end.

(** Every shard probed by a run of [log_backing_type] from state [w]
    classifies as absent or as [c]. *)
Fixpoint all_agree (get_oid : Z -> string) (c : shard_check.t) (n : nat)
    (i : Z) (w : W) : bool :=
  match n with
  | O => true
  | S n' =>
      let run := probe_shard env (get_oid i) w in
      (shard_check.eqb (fst (value run)) shard_check.dne
       || shard_check.eqb (fst (value run)) c)
      && all_agree get_oid c n' (i + 1) (world run)
  end.

End Reading.

(** The classification that stands for a backing type. *)
Definition check_of (ty : log_type.t) : shard_check.t :=
  match ty with
  | log_type.fifo => shard_check.fifo
  | log_type.omap => shard_check.omap
  end.

(** An entry marked empty, as [i->second.empty = true] leaves it. *)
Definition as_empty (e : Z * logback_generation) : Z * logback_generation :=
  (fst e, mk_gen (gen_id (snd e)) (type (snd e)) true).

(** The map with every entry of a key up to [gen] marked empty and the
    others as they are. *)
Definition emptied_to (gen : Z) (es : entries_t) : entries_t :=
  map (fun e => if fst e <=? gen then as_empty e else e) es.

(** [k] is the greatest key of [es] that is not above [gen]. *)
Definition greatest_key_to (gen : Z) (es : entries_t) (k : Z) : Prop :=
  In k (map fst es) /\ k <= gen /\
  forall k', In k' (map fst es) -> k' <= gen -> k' <= k.

(** * cconf: the command-line tool of [src/cconf.cc]

    [main] after [argv_to_vec] and [env_to_vec] have filled [args]; what
    it prints and the status it ends with. *)

(** What [main] uses of a [ConfFile] (common/ConfUtils.h, not under
    src/): the names of its sections in the order of
    [get_section_list()], and what [cf.read(section, key, &val, NULL)]
    leaves in [val], [None] for a null pointer; [key] can be a null
    pointer too. *)
Record ConfFile : Type := mk_conf {
  get_section_list : list string;
  conf_read : string -> option string -> option string
}.

(** The locals of [main] that the loop over the arguments sets. *)
Record cconf_locals : Type := mk_locals {
  fname : string;
  list_sections : option string;
  sections : list string;
  key : option string;
  defval : option string;
  param : Z
}.

(** How a run ends: the exit status, the lines on [cout] and the lines on
    [cerr]. *)
Inductive cconf_exit : Type :=
| Exit (status : Z) (out : list string) (err : list string).

Definition usage : cconf_exit :=
  Exit 1 []
    ["usage: cconf [-c filename] [-l|--list_sections <prefix>] [-s <section>] [[-s section] ... ] <key> [default]"].

(** The arguments the loop takes as options. *)
Definition is_option (a : string) : bool :=
  (a =? "-c")%string || (a =? "-l")%string
  || (a =? "--list_sections")%string || (a =? "-s")%string.

(** The [switch (param)] for an argument that is no option, with the
    [param++] after it. *)
Definition positional (a : string) (st : cconf_locals) : cconf_locals :=
  let p := param st + 1 in
  if param st =? 0 then
    mk_locals (fname st) (list_sections st) (sections st ++ [a]) (key st)
      (defval st) p
  else if param st =? 1 then
    mk_locals (fname st) (list_sections st) (sections st) (Some a)
      (defval st) p
  else if param st =? 2 then
    mk_locals (fname st) (list_sections st) (sections st) (key st)
      (Some a) p
  else
    mk_locals (fname st) (list_sections st) (sections st) (key st)
      (defval st) p.

(** The loop over [args]; [None] when it calls [usage()]. *)
Fixpoint parse_args (args : list string) (st : cconf_locals)
  : option cconf_locals :=
  match args with
  | [] => Some st
  | a :: rest =>
    if (a =? "-c")%string then
      match rest with
      | v :: rest' =>
          parse_args rest'
            (mk_locals v (list_sections st) (sections st) (key st)
               (defval st) (param st))
      | [] => None
      end
    else if (a =? "-l")%string || (a =? "--list_sections")%string then
      match rest with
      | v :: rest' =>
          parse_args rest'
            (mk_locals (fname st) (Some v) (sections st) (key st)
               (defval st) (param st))
      | [] => None
      end
    else if (a =? "-s")%string then
      let p := if param st =? 0 then param st + 1 else param st in
      match rest with
      | v :: rest' =>
          parse_args rest'
            (mk_locals (fname st) (list_sections st) (sections st ++ [v])
               (key st) (defval st) p)
      | [] => None
      end
    else parse_args rest (positional a st)
  end.

(** The loop over [sections]: the first value read that is not null. *)
Fixpoint read_sections (cf : ConfFile) (ss : list string)
    (k : option string) : option string :=
  match ss with
  | [] => None
  | s :: tl =>
      match conf_read cf s k with
      | Some val => Some val
      | None => read_sections cf tl k
      end
  end.

(** The locals before the loop; [conf] is [g_conf.conf]. *)
Definition initial (conf : string) : cconf_locals :=
  mk_locals conf None [] None None 0.

(** [main]; [conf] is [g_conf.conf], and [load f] is the [ConfFile] of
    file [f] after [parse_config_file]. *)
Definition main (conf : string) (load : string -> ConfFile)
    (args : list string) : cconf_exit :=
  if (length args <? 2)%nat then usage
  else
  match parse_args args (initial conf) with
  | None => usage
  | Some st =>
    if match list_sections st with None => true | Some _ => false end
       && ((param st <? 1) || (3 <? param st))
    then usage
    else
    let cf := load (fname st) in
    match list_sections st with
    | Some pfx => Exit 0 (filter (String.prefix pfx) (get_section_list cf)) []
    | None =>
      match read_sections cf (sections st) (key st) with
      | Some val => Exit 0 [val] []
      | None =>
        match defval st with
        | Some d => Exit 0 [d] []
        | None => Exit 1 [] []
        end
      end
    end
  end.


(** The command line [-s s1 -s s2 ...] for the sections [ss]. *)
Definition dash_s (ss : list string) : list string :=
  flat_map (fun s => ["-s"; s]) ss.

(** A configuration for the examples: sections global, mon and osd. *)
Definition sample_conf : ConfFile :=
  mk_conf ["global"; "mon"; "mon.a"; "osd"]
    (fun s k =>
       match k with
       | Some "debug" =>
           if (s =? "global")%string then Some "1"
           else if (s =? "mon")%string then Some "5" else None
       | _ => None
       end).

(** * Properties *)

Section Properties.

Context {W : Type}.
Variable env : Env W.

(** ** Shard probing *)

Lemma probe_shard_both_corrupt oid w :
  fifo_and_omap_evidence env oid w = true ->
  value (probe_shard env oid w) = (shard_check.corrupt, false).
Proof.
  unfold fifo_and_omap_evidence. intros Hev.
  destruct (env_cls_log_info env oid w) as [[r1 h] w1] eqn:Hinfo.
  destruct (env_fifo_open env oid w1) as [[r2 f] w2] eqn:Hopen.
  apply andb_prop in Hev. destruct Hev as [Hev ->].
  apply andb_prop in Hev. destruct Hev as [Hr1 ->].
  apply Z.leb_le in Hr1.
  unfold probe_shard, bind, cls_log_info, fifo_open, value.
  rewrite Hinfo.
  assert (E1 : (r1 =? - ENOENT) = false) by (apply Z.eqb_neq; unfold ENOENT; lia).
  assert (E2 : (r1 <? 0) = false) by (apply Z.ltb_ge; lia).
  rewrite E1, E2, Hopen.
  destruct ((r2 <? 0) && negb ((r2 =? - ENOENT) || (r2 =? - ENODATA)));
    reflexivity.
Qed.

Lemma log_backing_type_loop_S (get_oid : Z -> string) n i check w :
  log_backing_type_loop env get_oid (S n) i check w =
  (let '(ce, w1, t1) := probe_shard env (get_oid i) w in
   let '(b, w2, t2) :=
     (let '(c, e) := ce in
      if shard_check.eqb c shard_check.corrupt then ret (Unexpected EIO)
      else if shard_check.eqb c shard_check.dne then
        log_backing_type_loop env get_oid n (i + 1) check
      else if shard_check.eqb check shard_check.dne then
        log_backing_type_loop env get_oid n (i + 1) c
      else if negb (shard_check.eqb check c) then
        lderr "clashing types" ;;; ret (Unexpected EIO)
      else log_backing_type_loop env get_oid n (i + 1) check) w1 in
   (b, w2, t1 ++ t2)).
Proof. reflexivity. Qed.

(** A shard that always shows both kinds of evidence, somewhere among the
    shards still to probe, makes the loop return EIO. *)
Lemma log_backing_type_loop_corrupt (get_oid : Z -> string) n :
  forall i0 check w,
    (exists i, i0 <= i < i0 + Z.of_nat n /\
               forall w', fifo_and_omap_evidence env (get_oid i) w' = true) ->
    value (log_backing_type_loop env get_oid n i0 check w) = Unexpected EIO.
Proof.
  induction n as [|n IH]; intros i0 check w (i & Hi & Hev).
  - simpl in Hi. lia.
  - rewrite log_backing_type_loop_S.
    destruct (probe_shard env (get_oid i0) w) as [[[c e] w1] t1] eqn:Hp.
    assert (Hnext : i = i0 \/ i0 + 1 <= i < i0 + 1 + Z.of_nat n) by lia.
    assert (Hrec : forall ck w',
               c <> shard_check.corrupt ->
               value (log_backing_type_loop env get_oid n (i0 + 1) ck w')
               = Unexpected EIO).
    { intros ck w' Hc. destruct Hnext as [-> | Hrange].
      - exfalso. apply Hc.
        pose proof (probe_shard_both_corrupt (get_oid i0) w (Hev w)) as Hb.
        rewrite Hp in Hb. unfold value in Hb. simpl in Hb. congruence.
      - apply IH. exists i. split; [lia | exact Hev]. }
    destruct c; simpl.
    + specialize (Hrec check w1 ltac:(discriminate)).
      destruct (log_backing_type_loop env get_oid n (i0 + 1) check w1)
        as [[b w2] t2]. exact Hrec.
    + destruct check; simpl;
        try (specialize (Hrec shard_check.omap w1 ltac:(discriminate));
             destruct (log_backing_type_loop env get_oid n (i0 + 1) _ w1)
               as [[b w2] t2]; exact Hrec);
        reflexivity.
    + destruct check; simpl;
        try (specialize (Hrec shard_check.fifo w1 ltac:(discriminate));
             destruct (log_backing_type_loop env get_oid n (i0 + 1) _ w1)
               as [[b w2] t2]; exact Hrec);
        reflexivity.
    + reflexivity.
Qed.

(** C7: a shard object with both FIFO evidence and OMAP evidence probes as
    (corrupt, false), and log_backing_type over shards that include such a
    shard fails with EIO. *)
Theorem probe_shard_fifo_and_omap_is_corrupt :
  (forall oid w,
      fifo_and_omap_evidence env oid w = true ->
      value (probe_shard env oid w) = (shard_check.corrupt, false)) /\
  (forall def shards get_oid i w,
      0 <= i < shards ->
      (forall w', fifo_and_omap_evidence env (get_oid i) w' = true) ->
      value (log_backing_type env def shards get_oid w) = Unexpected EIO).
Proof.
  split.
  - exact probe_shard_both_corrupt.
  - intros def shards get_oid i w Hi Hev.
    unfold log_backing_type, bind.
    pose proof (log_backing_type_loop_corrupt get_oid (Z.to_nat shards) 0
                  shard_check.dne w) as Hloop.
    destruct (log_backing_type_loop env get_oid (Z.to_nat shards) 0
                shard_check.dne w) as [[res w1] t1].
    unfold value in Hloop. simpl in Hloop.
    rewrite Hloop.
    + reflexivity.
    + exists i. split; [lia | exact Hev].
Qed.

(** ** Resolving the backing type *)

(** One call into the environment, replaced by its reply. *)
Ltac destruct_env :=
  match goal with
  | |- context [env_cls_log_info ?e ?o ?w] =>
      destruct (env_cls_log_info e o w) as [[? ?] ?] eqn:?
  | |- context [env_fifo_open ?e ?o ?w] =>
      destruct (env_fifo_open e o w) as [[? ?] ?] eqn:?
  | |- context [env_fifo_list ?e ?o ?w] =>
      destruct (env_fifo_list e o w) as [[? ?] ?] eqn:?
  | |- context [env_cls_log_list ?e ?o ?w] =>
      destruct (env_cls_log_list e o w) as [[? ?] ?] eqn:?
  | |- context [env_fifo_create ?e ?o ?w] =>
      destruct (env_fifo_create e o w) as [? ?] eqn:?
  | |- context [env_fifo_get_meta ?e ?o ?w] =>
      destruct (env_fifo_get_meta e o w) as [[? ?] ?] eqn:?
  | |- context [env_remove ?e ?o ?w] =>
      destruct (env_remove e o w) as [? ?] eqn:?
  | |- context [env_clear_truncate ?e ?o ?w] =>
      destruct (env_clear_truncate e o w) as [? ?] eqn:?
  | |- context [env_read ?e ?o ?v ?w] =>
      destruct (env_read e o v w) as [[[? ?] ?] ?] eqn:?
  | |- context [env_write ?e ?o ?v ?es ?w] =>
      destruct (env_write e o v es w) as [? ?] eqn:?
  | |- context [env_create ?e ?o ?v ?es ?w] =>
      destruct (env_create e o v es w) as [? ?] eqn:?
  | |- context [env_notify ?e ?o ?t ?w] =>
      destruct (env_notify e o t w) as [? ?] eqn:?
  | |- context [env_watch ?e ?o ?w] =>
      destruct (env_watch e o w) as [[? ?] ?] eqn:?
  | |- context [env_rand_alpha ?e ?n ?w] =>
      destruct (env_rand_alpha e n w) as [? ?] eqn:?
  | |- context [env_handle_init ?e ?es ?w] =>
      destruct (env_handle_init e es w) as [? ?] eqn:?
  | |- context [env_handle_new_gens ?e ?es ?w] =>
      destruct (env_handle_new_gens e es w) as [? ?] eqn:?
  | |- context [env_handle_empty_to ?e ?g ?w] =>
      destruct (env_handle_empty_to e g w) as [? ?] eqn:?
  end.

(** One test of the code, split in its two ways. *)
Ltac destruct_if :=
  match goal with
  | |- context [if ?c then _ else _] => destruct c eqn:?
  end.

(** The projections of a run that is now a tuple. *)
Ltac proj_simpl := unfold value, world, trace in *; cbn [fst snd app] in *.

Ltac run_all := repeat (first [destruct_env | destruct_if]; simpl).

(** Probing reads; it changes no object. *)
Lemma probe_shard_reads_only oid w :
  filter is_store_write (trace (probe_shard env oid w)) = [].
Proof.
  unfold probe_shard, bind, cls_log_info, fifo_open, fifo_list, cls_log_list,
    lderr, ret, trace.
  run_all; reflexivity.
Qed.

Lemma log_backing_type_loop_absent (get_oid : Z -> string) n :
  forall i w,
    all_absent env get_oid n i w = true ->
    value (log_backing_type_loop env get_oid n i shard_check.dne w)
      = Expected shard_check.dne /\
    filter is_store_write
      (trace (log_backing_type_loop env get_oid n i shard_check.dne w)) = [].
Proof.
  induction n as [|n IH]; intros i w Habs.
  - split; reflexivity.
  - rewrite log_backing_type_loop_S.
    simpl in Habs. apply andb_prop in Habs. destruct Habs as [Hc Hrest].
    pose proof (probe_shard_reads_only (get_oid i) w) as Hro.
    destruct (probe_shard env (get_oid i) w) as [[[c e] w1] t1].
    unfold value, world, trace in Hc, Hrest, Hro. simpl in Hc, Hrest, Hro.
    destruct c; try discriminate. simpl.
    destruct (IH (i + 1) w1 Hrest) as [Hv Ht].
    destruct (log_backing_type_loop env get_oid n (i + 1) shard_check.dne w1)
      as [[b w2] t2].
    unfold value, trace in *. simpl in *.
    split; [exact Hv|]. rewrite filter_app, Hro, Ht. reflexivity.
Qed.

(** C8: when every probed shard is absent, a default of FIFO creates a FIFO
    on shard 0's object and changes no other object, and FIFO is returned
    (the error of the create when it fails); a default of OMAP changes no
    object and OMAP is returned. *)
Theorem log_backing_type_all_absent :
  forall def shards (get_oid : Z -> string) w,
    all_absent env get_oid (Z.to_nat shards) 0 w = true ->
    let run := log_backing_type env def shards get_oid w in
    match def with
    | log_type.fifo =>
        exists r,
          filter is_store_write (trace run) = [EvFifoCreate (get_oid 0) r] /\
          value run = (if r <? 0 then Unexpected (- r)
                       else Expected log_type.fifo)
    | log_type.omap =>
        filter is_store_write (trace run) = [] /\
        value run = Expected log_type.omap
    end.
Proof.
  intros def shards get_oid w Habs run. subst run.
  destruct (log_backing_type_loop_absent get_oid _ 0 w Habs) as [Hv Ht].
  unfold log_backing_type, bind.
  destruct (log_backing_type_loop env get_oid (Z.to_nat shards) 0
              shard_check.dne w) as [[res w1] t1].
  unfold value, trace in Hv, Ht. simpl in Hv, Ht. subst res. simpl.
  destruct def; unfold handle_dne, bind, fifo_create, ret, lderr, value, trace.
  - simpl. rewrite app_nil_r. split; [exact Ht | reflexivity].
  - destruct (env_fifo_create env (get_oid 0) w1) as [r w2].
    exists r. destruct (r <? 0); simpl;
      rewrite filter_app, Ht; simpl; split; reflexivity.
Qed.

(** ** Generation removal *)

Lemma first_error_kept_app t1 t2 :
  first_error_kept (t1 ++ t2) = first_error_from (first_error_kept t1) t2.
Proof.
  unfold first_error_from.
  induction t1 as [|e t1 IH]; cbn [first_error_kept app].
  - reflexivity.
  - destruct (store_result e) as [[probe r]|]; [|exact IH].
    destruct ((r <? 0) && negb (r =? - ENOENT)
              && negb (probe && (r =? - ENODATA))) eqn:E; [|exact IH].
    apply andb_prop in E. destruct E as [E _].
    apply andb_prop in E. destruct E as [E _].
    apply Z.ltb_lt in E.
    assert (F : failed (- r) = true)
      by (unfold failed; apply negb_true_iff, Z.eqb_neq; lia).
    rewrite F. reflexivity.
Qed.

Lemma first_error_from_app ec t1 t2 :
  first_error_from ec (t1 ++ t2) = first_error_from (first_error_from ec t1) t2.
Proof.
  unfold first_error_from at 1 3.
  destruct (failed ec) eqn:E.
  - unfold first_error_from. rewrite E. reflexivity.
  - apply first_error_kept_app.
Qed.

Lemma first_error_from_nil ec : first_error_from ec [] = ec.
Proof.
  unfold first_error_from, failed.
  destruct (ec =? 0) eqn:E; simpl; [|reflexivity].
  apply Z.eqb_eq in E. auto.
Qed.

(** [first_error] keeps the error it has, or takes the one of a failed
    call. *)
Lemma first_error_from_failed ec r e probe t :
  store_result e = Some (probe, r) ->
  (r <? 0) && negb (r =? - ENOENT) && negb (probe && (r =? - ENODATA)) = true ->
  first_error_from ec (e :: t) = first_error ec r.
Proof.
  intros He Hr. unfold first_error_from, first_error.
  cbn [first_error_kept]. rewrite He, Hr. reflexivity.
Qed.

Lemma first_error_from_passed ec r e probe t :
  store_result e = Some (probe, r) ->
  (r <? 0) && negb (r =? - ENOENT) && negb (probe && (r =? - ENODATA)) = false ->
  first_error_from ec (e :: t) = first_error_from ec t.
Proof.
  intros He Hr. unfold first_error_from.
  cbn [first_error_kept]. rewrite He, Hr. reflexivity.
Qed.

Lemma remove_parts_trace info n :
  forall j ec w,
    parts_trace info n j (trace (remove_parts env info n j ec w)) /\
    value (remove_parts env info n j ec w)
      = first_error_from ec (trace (remove_parts env info n j ec w)).
Proof.
  induction n as [|n IH]; intros j ec w.
  - split; [constructor | symmetry; apply first_error_from_nil].
  - cbn [remove_parts]. unfold bind, rados_remove.
    destruct (env_remove env (part_oid info j) w) as [subr w1].
    destruct ((subr <? 0) && negb (subr =? - ENOENT)) eqn:E.
    + unfold bind, lderr.
      destruct (IH (j + 1) (first_error ec subr) w1) as [Ht Hv].
      destruct (remove_parts env info n (j + 1) (first_error ec subr) w1)
        as [[ec' w2] t2].
      proj_simpl.
      split; [constructor; [exact E | exact Ht]|].
      rewrite Hv.
      change (EvRemove (part_oid info j) subr :: EvLog "failed removing FIFO part" :: t2)
        with ([EvRemove (part_oid info j) subr] ++ EvLog "failed removing FIFO part" :: t2).
      rewrite first_error_from_app.
      rewrite (first_error_from_failed ec subr _ false []);
        [reflexivity | reflexivity | rewrite E; reflexivity].
    + destruct (IH (j + 1) ec w1) as [Ht Hv].
      destruct (remove_parts env info n (j + 1) ec w1) as [[ec' w2] t2].
      proj_simpl.
      split; [constructor; [exact E | exact Ht]|].
      rewrite Hv. symmetry.
      apply (first_error_from_passed ec subr _ false); [reflexivity|].
      rewrite E. reflexivity.
Qed.

Lemma only_logs_nil : only_logs [].
Proof. constructor. Qed.

Lemma only_logs_one msg : only_logs [EvLog msg].
Proof. constructor; [eexists; reflexivity | constructor]. Qed.

#[local] Hint Resolve only_logs_nil only_logs_one : core.

(** The last step of a round: the shard object itself. *)
Lemma shard_object_step (get_oid : Z -> string) leave_zero i ec w :
  let run :=
    (r <- (if (i =? 0) && leave_zero
           then rados_clear_truncate env (get_oid i)
           else rados_remove env (get_oid i)) ;;
     if (r <? 0) && negb (r =? - ENOENT) then
       lderr "failed removing shard" ;;; ret (first_error ec r)
     else ret ec) w in
  exists r2 l2,
    trace run = shard_op get_oid leave_zero i r2 :: l2 /\ only_logs l2 /\
    value run = first_error_from ec (trace run).
Proof.
  unfold bind, rados_clear_truncate, rados_remove, lderr, ret, shard_op.
  destruct ((i =? 0) && leave_zero).
  - destruct (env_clear_truncate env (get_oid i) w) as [r2 w2].
    destruct ((r2 <? 0) && negb (r2 =? - ENOENT)) eqn:E; proj_simpl.
    + exists r2, [EvLog "failed removing shard"]. repeat split; auto.
      symmetry. apply (first_error_from_failed ec r2 _ false); [reflexivity|].
      rewrite E. reflexivity.
    + exists r2, []. repeat split; auto.
      rewrite (first_error_from_passed ec r2 _ false);
        [symmetry; apply first_error_from_nil | reflexivity |].
      rewrite E. reflexivity.
  - destruct (env_remove env (get_oid i) w) as [r2 w2].
    destruct ((r2 <? 0) && negb (r2 =? - ENOENT)) eqn:E; proj_simpl.
    + exists r2, [EvLog "failed removing shard"]. repeat split; auto.
      symmetry. apply (first_error_from_failed ec r2 _ false); [reflexivity|].
      rewrite E. reflexivity.
    + exists r2, []. repeat split; auto.
      rewrite (first_error_from_passed ec r2 _ false);
        [symmetry; apply first_error_from_nil | reflexivity |].
      rewrite E. reflexivity.
Qed.

(** The step before it: the parts, then the error of the probe. *)
Lemma shard_parts_step info r ec w :
  (r =? - ENOENT) = false ->
  let run :=
    (ec <- (if (r =? 0) && (-1 <? head_part_num info) then
              remove_parts env info
                (Z.to_nat (head_part_num info - tail_part_num info + 1))
                (tail_part_num info) ec
            else ret ec) ;;
     if (r <? 0) && negb (r =? - ENODATA) then
       lderr "failed checking FIFO part" ;;; ret (first_error ec r)
     else ret ec) w in
  exists ps l1,
    trace run = ps ++ l1 /\
    parts_trace info (parts_of r info) (tail_part_num info) ps /\
    only_logs l1 /\
    forall oid,
      value run = first_error_from ec (EvFifoGetMeta oid r info :: trace run).
Proof.
  intros Hne. unfold bind, parts_of.
  destruct ((r =? 0) && (-1 <? head_part_num info)) eqn:Ep.
  - apply andb_prop in Ep. destruct Ep as [Er _]. apply Z.eqb_eq in Er.
    subst r.
    destruct (remove_parts_trace info
                (Z.to_nat (head_part_num info - tail_part_num info + 1))
                (tail_part_num info) ec w) as [Hps Hv].
    destruct (remove_parts env info _ (tail_part_num info) ec w)
      as [[ec1 w1] ps].
    proj_simpl. cbn [andb Z.ltb Z.compare]. unfold ret. proj_simpl.
    exists ps, []. rewrite !app_nil_r. split; [reflexivity | split; [exact Hps | split; [auto|]]].
    intros oid. rewrite Hv. symmetry.
    apply (first_error_from_passed ec 0 _ true); reflexivity.
  - unfold ret at 1.
    destruct ((r <? 0) && negb (r =? - ENODATA)) eqn:E;
      unfold lderr, ret, bind; proj_simpl.
    + exists [], [EvLog "failed checking FIFO part"].
      split; [reflexivity | split; [constructor | split; [auto|]]].
      intros oid. symmetry.
      apply (first_error_from_failed ec r _ true); [reflexivity|].
      apply andb_prop in E. destruct E as [E1 E2].
      rewrite E1, Hne. apply negb_true_iff in E2. rewrite E2.
      reflexivity.
    + exists [], []. split; [reflexivity | split; [constructor | split; [auto|]]].
      intros oid.
      rewrite (first_error_from_passed ec r _ true);
        [symmetry; apply first_error_from_nil | reflexivity |].
      destruct (r <? 0); [|reflexivity].
      cbn [andb] in E. apply negb_false_iff in E. rewrite E, Hne.
      reflexivity.
Qed.

Lemma bind_assoc_run {A B C : Type} (m : IO W A) (f : A -> IO W B)
    (g : B -> IO W C) w :
  bind (bind m f) g w = bind m (fun x => bind (f x) g) w.
Proof.
  unfold bind.
  destruct (m w) as [[a w1] t1].
  destruct (f a w1) as [[b w2] t2].
  destruct (g b w2) as [[c w3] t3].
  rewrite app_assoc. reflexivity.
Qed.

(** One round: its calls have the shape of [shard_trace], and the error
    carried on is the first one kept. *)
Lemma log_remove_shard_trace (get_oid : Z -> string) leave_zero i ec w :
  shard_trace get_oid leave_zero i
    (trace (log_remove_shard env get_oid leave_zero i ec w)) /\
  value (log_remove_shard env get_oid leave_zero i ec w)
    = first_error_from ec
        (trace (log_remove_shard env get_oid leave_zero i ec w)).
Proof.
  remember (log_remove_shard env get_oid leave_zero i ec w) as run eqn:Hrun.
  unfold log_remove_shard in Hrun. unfold bind at 1 in Hrun.
  unfold fifo_get_meta in Hrun.
  destruct (env_fifo_get_meta env (get_oid i) w) as [[r info] w1].
  destruct (r =? - ENOENT) eqn:Hne.
  - apply Z.eqb_eq in Hne. subst r. unfold ret in Hrun. subst run.
    proj_simpl. split; [constructor|].
    rewrite (first_error_from_passed ec (- ENOENT) _ true);
      [symmetry; apply first_error_from_nil | reflexivity | reflexivity].
  - rewrite <- bind_assoc_run in Hrun.
    unfold bind at 1 in Hrun.
    destruct (shard_parts_step info r ec w1 Hne)
      as (ps & l1 & Ht & Hps & Hl1 & Hv).
    match type of Ht with
    | trace ?r12 = _ => destruct r12 as [[ec2 w2] t12]
    end.
    destruct (shard_object_step get_oid leave_zero i ec2 w2)
      as (r2 & l2 & Ht2 & Hl2 & Hv2).
    match type of Ht2 with
    | trace ?r3 = _ => destruct r3 as [[ec3 w3] t3]
    end.
    subst run. proj_simpl. subst t12 t3.
    rewrite <- app_assoc.
    split.
    + apply shard_present; auto. apply Z.eqb_neq. exact Hne.
    + rewrite Hv2.
      rewrite (app_assoc ps l1), app_comm_cons.
      rewrite (first_error_from_app ec).
      rewrite <- (Hv (get_oid i)). reflexivity.
Qed.

Lemma log_remove_loop_trace (get_oid : Z -> string) leave_zero n :
  forall i ec w,
    shards_trace get_oid leave_zero n i
      (trace (log_remove_loop env get_oid leave_zero n i ec w)) /\
    value (log_remove_loop env get_oid leave_zero n i ec w)
      = first_error_from ec
          (trace (log_remove_loop env get_oid leave_zero n i ec w)).
Proof.
  induction n as [|n IH]; intros i ec w.
  - split; [constructor | symmetry; apply first_error_from_nil].
  - cbn [log_remove_loop]. unfold bind.
    destruct (log_remove_shard_trace get_oid leave_zero i ec w) as [Ht1 Hv1].
    destruct (log_remove_shard env get_oid leave_zero i ec w)
      as [[ec1 w1] t1].
    destruct (IH (i + 1) ec1 w1) as [Ht2 Hv2].
    destruct (log_remove_loop env get_oid leave_zero n (i + 1) ec1 w1)
      as [[ec2 w2] t2].
    proj_simpl.
    split; [constructor; assumption|].
    rewrite first_error_from_app, <- Hv1. exact Hv2.
Qed.

(** C9, as amended: [log_remove] goes through the shards in order and
    through all of them; a shard whose probe for FIFO metadata says "no
    such object" is left alone; for any other shard the parts of its FIFO
    are removed and then the object is removed, except that under
    [leave_zero] shard 0 is cleared and truncated instead; the code
    returned is the first error of these calls, other than "no such
    object" and other than "no data" from the probe, and success if there
    is none. *)
Theorem log_remove_visits_all_returns_first :
  forall shards (get_oid : Z -> string) leave_zero w,
    let run := log_remove env shards get_oid leave_zero w in
    shards_trace get_oid leave_zero (Z.to_nat shards) 0 (trace run) /\
    value run = first_error_kept (trace run).
Proof.
  intros shards get_oid leave_zero w run. subst run. unfold log_remove.
  destruct (log_remove_loop_trace get_oid leave_zero (Z.to_nat shards) 0 0 w)
    as [Ht Hv].
  split; [exact Ht | exact Hv].
Qed.

(** ** Entries maps *)

Lemma lowest_nomempty_le es : (lowest_nomempty es <= length es)%nat.
Proof.
  induction es as [|[k g] tl IH]; simpl; [lia|].
  destruct (empty g); simpl; lia.
Qed.

Lemma back_cons e es : back (e :: es) = match es with
                                        | [] => Some e
                                        | _ :: _ => back es
                                        end.
Proof.
  unfold back. destruct es as [|e' tl]; [reflexivity|].
  cbn [length]. replace (S (S (length tl)) - 1)%nat with (S (length tl)) by lia.
  replace (S (length tl) - 1)%nat with (length tl) by lia.
  reflexivity.
Qed.

Lemma back_some e es : exists b, back (e :: es) = Some b.
Proof.
  revert e. induction es as [|e' tl IH]; intros e.
  - exists e. reflexivity.
  - rewrite back_cons. apply IH.
Qed.

(** In a flat_map every key is at most the key of the last entry. *)
Lemma keys_above_back lo es k g :
  keys_above lo es = true -> back es = Some (k, g) ->
  lo < k /\ forall e, In e es -> fst e <= k.
Proof.
  revert lo. induction es as [|[k1 g1] tl IH]; intros lo Hs Hb.
  - discriminate.
  - cbn [keys_above] in Hs. apply andb_prop in Hs. destruct Hs as [Hlo Htl].
    apply Z.ltb_lt in Hlo. rewrite back_cons in Hb.
    destruct tl as [|e2 tl2].
    + inversion Hb; subst. split; [lia|].
      intros e [<-|[]]. simpl. lia.
    + destruct (IH k1 Htl Hb) as [Hk Hall].
      split; [lia|]. intros e [<-|Hin]; [simpl; lia | auto].
Qed.

Lemma flat_map_back_max es k g :
  flat_map_ok es = true -> back es = Some (k, g) ->
  forall e, In e es -> fst e <= k.
Proof.
  destruct es as [|[k1 g1] tl]; [discriminate|].
  intros Hs Hb. cbn [flat_map_ok] in Hs. rewrite back_cons in Hb.
  destruct tl as [|e2 tl2].
  - inversion Hb; subst. intros e [<-|[]]. simpl. lia.
  - destruct (keys_above_back k1 _ k g Hs Hb) as [Hk Hall].
    intros e [<-|Hin]; [simpl; lia | auto].
Qed.

(** In a flat_map the lowest non-empty entry has the least key among the
    non-empty entries. *)
Lemma keys_above_lowest lo es k :
  keys_above lo es = true ->
  lowest_nonempty_key es = Some k ->
  forall e, In e es -> empty (snd e) = false -> k <= fst e.
Proof.
  unfold lowest_nonempty_key, deref.
  revert lo. induction es as [|[k1 g1] tl IH]; intros lo Hs Hk e Hin He.
  - destruct Hin.
  - cbn [keys_above] in Hs. apply andb_prop in Hs. destruct Hs as [Hlo Htl].
    cbn [lowest_nomempty] in Hk.
    destruct (empty g1) eqn:E1.
    + cbn [nth_error] in Hk. destruct Hin as [<-|Hin].
      * cbn [snd] in He. congruence.
      * apply (IH k1 Htl Hk e Hin He).
    + cbn in Hk. inversion Hk; subst k1.
      destruct Hin as [<-|Hin]; [simpl; lia|].
      clear IH E1 Hk Hlo. revert k Htl.
      induction tl as [|[k2 g2] tl2 IH2]; intros k Htl; [destruct Hin|].
      cbn [keys_above] in Htl. apply andb_prop in Htl.
      destruct Htl as [H12 Htl2]. apply Z.ltb_lt in H12.
      destruct Hin as [<-|Hin]; [simpl; lia|].
      specialize (IH2 Hin k2 Htl2). lia.
Qed.

Lemma flat_map_lowest es k :
  flat_map_ok es = true ->
  lowest_nonempty_key es = Some k ->
  forall e, In e es -> empty (snd e) = false -> k <= fst e.
Proof.
  destruct es as [|[k1 g1] tl]; [intros _ _ e []|].
  intros Hs. apply (keys_above_lowest (k1 - 1)).
  cbn [keys_above]. cbn [flat_map_ok] in Hs. rewrite Hs.
  replace (k1 - 1 <? k1) with true by (symmetry; apply Z.ltb_lt; lia).
  reflexivity.
Qed.

(** In a flat_map, what [lower_bound] leaves is what is not below [k]. *)
Lemma keys_above_lower_bound k lo es :
  keys_above lo es = true ->
  skipn (lower_bound es k) es = filter (fun e => k <=? fst e) es.
Proof.
  revert lo. induction es as [|[k1 g1] tl IH]; intros lo Hs.
  - reflexivity.
  - cbn [keys_above] in Hs. apply andb_prop in Hs. destruct Hs as [Hlo Htl].
    cbn [lower_bound filter fst].
    destruct (k1 <? k) eqn:E.
    + apply Z.ltb_lt in E.
      replace (k <=? k1) with false by (symmetry; apply Z.leb_gt; lia).
      cbn [skipn]. apply (IH k1 Htl).
    + apply Z.ltb_ge in E.
      replace (k <=? k1) with true by (symmetry; apply Z.leb_le; lia).
      cbn [skipn]. f_equal.
      clear IH. revert k1 Htl Hlo E.
      induction tl as [|[k2 g2] tl2 IH2]; intros k1 Htl Hlo E.
      * reflexivity.
      * cbn [keys_above] in Htl. apply andb_prop in Htl.
        destruct Htl as [H12 Htl2]. apply Z.ltb_lt in H12.
        cbn [filter fst].
        replace (k <=? k2) with true by (symmetry; apply Z.leb_le; lia).
        f_equal. apply (IH2 k2 Htl2); lia.
Qed.

Lemma flat_map_lower_bound k es :
  flat_map_ok es = true ->
  skipn (lower_bound es k) es = filter (fun e => k <=? fst e) es.
Proof.
  destruct es as [|[k1 g1] tl]; [reflexivity|].
  intros Hs. cbn [flat_map_ok] in Hs.
  apply (keys_above_lower_bound k (k1 - 1)).
  cbn [keys_above]. rewrite Hs.
  replace (k1 - 1 <? k1) with true by (symmetry; apply Z.ltb_lt; lia).
  reflexivity.
Qed.

(** The position before the lowest non-empty entry holds the last entry
    of the empty prefix. *)
Lemma back_firstn (es : entries_t) n :
  (n <= length es)%nat -> n <> O ->
  back (firstn n es) = nth_error es (n - 1).
Proof.
  revert n. induction es as [|e tl IH]; intros n Hn Hz.
  - simpl in Hn. lia.
  - destruct n as [|n]; [lia|].
    cbn [firstn]. rewrite back_cons. cbn [length] in Hn.
    destruct n as [|n].
    + reflexivity.
    + destruct tl as [|e2 tl2]; [simpl in Hn; lia|].
      replace (S (S n) - 1)%nat with (S n) by lia.
      cbn [nth_error].
      specialize (IH (S n) ltac:(lia) ltac:(lia)).
      replace (S n - 1)%nat with n in IH by lia.
      rewrite <- IH. reflexivity.
Qed.

Lemma highest_empty_key_deref es :
  lowest_nomempty es <> O ->
  option_map fst (deref es (lowest_nomempty es - 1)) = highest_empty_key es.
Proof.
  intros Hz. unfold highest_empty_key, max_key, empty_prefix, deref.
  rewrite back_firstn; auto using lowest_nomempty_le.
Qed.

Lemma highest_empty_key_none es :
  lowest_nomempty es = O -> highest_empty_key es = None.
Proof.
  intros Hz. unfold highest_empty_key, empty_prefix. rewrite Hz. reflexivity.
Qed.

(** Without gaps, the key before position [S n] is one less. *)
Lemma dense_pred es n k1 g1 k2 g2 :
  dense es = true ->
  nth_error es n = Some (k1, g1) -> nth_error es (S n) = Some (k2, g2) ->
  k1 = k2 - 1.
Proof.
  revert n. induction es as [|[k g] tl IH]; intros n Hd H1 H2.
  - destruct n; discriminate.
  - destruct tl as [|[k' g'] tl2]; [destruct n; discriminate|].
    cbn [dense] in Hd. apply andb_prop in Hd. destruct Hd as [Hk Hd].
    apply Z.eqb_eq in Hk.
    destruct n as [|n].
    + cbn in H1, H2. inversion H1; inversion H2; subst. lia.
    + apply (IH n Hd); assumption.
Qed.

(** ** update *)

Lemma failed_false ec : failed ec = false -> ec = 0.
Proof.
  unfold failed. intros H. apply negb_false_iff in H.
  apply Z.eqb_eq in H. exact H.
Qed.

Lemma lowest_nonempty_key_nonnil es k :
  lowest_nonempty_key es = Some k -> es <> [].
Proof. intros H ->. discriminate. Qed.

(** C1: when the version read is the one held, [update] does nothing and
    succeeds; otherwise, when the map read is empty, or has no non-empty
    entry, or its lowest non-empty key or its maximum key is below the
    current one, [update] returns EFAULT, leaves entries and version as
    they were and calls no handler.  (For a map read that is not empty the
    code asserts that the current map has a non-empty entry.) *)
Theorem update_noop_or_inconsistency :
  forall oid s w r v2 es w1,
    env_read env oid (version s) w = (r, v2, Expected es, w1) ->
    0 <= r ->
    let run := update env oid s w in
    (obj_version_eqb v2 (version s) = true ->
     value run = (Ret 0, s) /\
     trace run = [EvRead oid (version s) r v2 (Expected es)]) /\
    (obj_version_eqb v2 (version s) = false ->
     inconsistent es (entries_ s) = true ->
     es = [] \/ lowest_nonempty_key (entries_ s) <> None ->
     value run = (Ret EFAULT, s) /\
     filter is_callback (trace run) = []).
Proof.
  intros oid s w r v2 es w1 Hread Hr run. subst run.
  assert (Hr' : (r <? 0) = false) by (apply Z.ltb_ge; lia).
  unfold update, read, bind, rados_read. rewrite Hread, Hr'.
  cbn [ret]. split; intros Hver; rewrite Hver.
  - split; reflexivity.
  - intros Hinc Hcur.
    destruct es as [|e0 es']; [split; reflexivity|].
    destruct Hcur as [Hcur|Hcur]; [discriminate|].
    unfold inconsistent, lowest_nonempty_key in Hinc, Hcur.
    destruct (deref (entries_ s) (lowest_nomempty (entries_ s)))
      as [[cf cg]|] eqn:Hc; [|contradiction Hcur; reflexivity].
    destruct (deref (e0 :: es') (lowest_nomempty (e0 :: es')))
      as [[nf ng]|] eqn:Hn; [|split; reflexivity].
    cbn [option_map fst below] in Hinc.
    destruct (nf <? cf) eqn:Htail; [split; reflexivity|].
    cbn [orb] in Hinc. unfold max_key in Hinc.
    destruct (back (e0 :: es')) as [[nl ngl]|] eqn:Hbn;
      [|discriminate].
    destruct (back (entries_ s)) as [[cl cgl]|] eqn:Hbc;
      [|discriminate].
    cbn [option_map fst below] in Hinc. rewrite Hinc.
    split; reflexivity.
Qed.

Lemma back_In (es : entries_t) e : back es = Some e -> In e es.
Proof.
  unfold back. destruct es as [|e0 tl]; [discriminate|].
  apply nth_error_In.
Qed.

Lemma u64_keys_In es e :
  u64_keys es = true -> In e es -> 0 <= fst e < uint64_max.
Proof.
  unfold u64_keys. intros Hall Hin.
  rewrite forallb_forall in Hall. specialize (Hall e Hin).
  apply andb_prop in Hall. destruct Hall as [H0 H1].
  apply Z.leb_le in H0. apply Z.ltb_lt in H1. lia.
Qed.

(** What the code computes as [highest_empty]. *)
Lemma highest_empty_as_computed es (advanced : bool) :
  (if advanced && negb (Nat.eqb (lowest_nomempty es) O)
   then option_map fst (deref es (lowest_nomempty es - 1))
   else None)
  = (if advanced then highest_empty_key es else None).
Proof.
  destruct advanced; [|reflexivity]. cbn [andb].
  destruct (Nat.eqb (lowest_nomempty es) O) eqn:E; cbn [negb].
  - apply Nat.eqb_eq in E. symmetry. apply highest_empty_key_none. exact E.
  - apply Nat.eqb_neq in E. apply highest_empty_key_deref. exact E.
Qed.

(** What the code computes as [new_entries]. *)
Lemma new_entries_as_computed es cur nl gl cl gcl :
  flat_map_ok es = true -> u64_keys es = true -> u64_keys cur = true ->
  back es = Some (nl, gl) -> back cur = Some (cl, gcl) ->
  (nl <? cl) = false ->
  (if cl <? nl then skipn (lower_bound es (u64_succ cl)) es else [])
  = entries_above cl es.
Proof.
  intros Hok Hu Huc Hb Hbc Hge. apply Z.ltb_ge in Hge.
  pose proof (u64_keys_In es _ Hu (back_In _ _ Hb)) as Hnl.
  pose proof (u64_keys_In cur _ Huc (back_In _ _ Hbc)) as Hcl.
  cbn [fst] in Hnl, Hcl. unfold entries_above.
  destruct (cl <? nl) eqn:E.
  - apply Z.ltb_lt in E.
    assert (Hs : u64_succ cl = cl + 1)
      by (unfold u64_succ; apply Z.mod_small; lia).
    rewrite Hs, flat_map_lower_bound by exact Hok.
    apply filter_ext. intros [k g]. cbn [fst].
    destruct (Z.leb_spec (cl + 1) k), (Z.ltb_spec cl k); (reflexivity || lia).
  - apply Z.ltb_ge in E. symmetry.
    pose proof (flat_map_back_max es nl gl Hok Hb) as Hmax.
    clear Hb Hu Hok. induction es as [|[k g] tl IH]; [reflexivity|].
    cbn [filter fst].
    assert (Hk : k <= nl) by (apply (Hmax (k, g)); left; reflexivity).
    replace (cl <? k) with false by (symmetry; apply Z.ltb_ge; lia).
    apply IH. intros e He. apply Hmax. right. exact He.
Qed.

(** With keys without a gap, the highest empty key is one below the
    lowest non-empty key. *)
Lemma highest_empty_key_dense es h nl :
  dense es = true ->
  highest_empty_key es = Some h -> lowest_nonempty_key es = Some nl ->
  h = nl - 1.
Proof.
  intros Hd Hh Hn.
  destruct (Nat.eq_dec (lowest_nomempty es) O) as [Hz|Hz].
  - rewrite highest_empty_key_none in Hh by exact Hz. discriminate.
  - rewrite <- highest_empty_key_deref in Hh by exact Hz.
    unfold lowest_nonempty_key, deref in *.
    destruct (nth_error es (lowest_nomempty es - 1)) as [[k1 g1]|] eqn:E1;
      [|discriminate].
    destruct (nth_error es (lowest_nomempty es)) as [[k2 g2]|] eqn:E2;
      [|discriminate].
    cbn in Hh, Hn. inversion Hh; inversion Hn; subst.
    apply (dense_pred es (lowest_nomempty es - 1) h g1 nl g2 Hd E1).
    replace (S (lowest_nomempty es - 1)) with (lowest_nomempty es) by lia.
    exact E2.
Qed.

(** C2, as amended: a successful [update] whose read passes the checks
    installs the map and version read; when the lowest non-empty key
    advanced and the new map has entries below its lowest non-empty one it
    calls [handle_empty_to] with the highest key of those (the new lowest
    non-empty key minus 1 when the keys have no gap), and when the new map
    has no entry below its lowest non-empty one it does not call
    [handle_empty_to]; then, when the new map has keys above the old
    maximum, it calls [handle_new_gens] with exactly those entries. *)
Theorem update_installs_then_announces :
  forall oid s w r v2 es w1 s',
    env_read env oid (version s) w = (r, v2, Expected es, w1) ->
    0 <= r ->
    obj_version_eqb v2 (version s) = false ->
    lowest_nonempty_key (entries_ s) <> None ->
    inconsistent es (entries_ s) = false ->
    flat_map_ok es = true -> u64_keys es = true ->
    u64_keys (entries_ s) = true ->
    value (update env oid s w) = (Ret 0, s') ->
    exists cl nl cm,
      lowest_nonempty_key (entries_ s) = Some cl /\
      lowest_nonempty_key es = Some nl /\
      max_key (entries_ s) = Some cm /\
      s' = mk_mgr es v2 (watchcookie s) /\
      trace (update env oid s w)
      = EvRead oid (version s) r v2 (Expected es)
          :: match (if cl <? nl then highest_empty_key es else None) with
             | Some h => [EvHandleEmptyTo h 0]
             | None => []
             end
          ++ match entries_above cm es with
             | [] => []
             | _ :: _ => [EvHandleNewGens (entries_above cm es) 0]
             end /\
      (dense es = true ->
       forall h, highest_empty_key es = Some h -> h = nl - 1).
Proof.
  intros oid s w r v2 es w1 s' Hread Hr Hver Hcur Hinc Hok Hu Huc.
  assert (Hr' : (r <? 0) = false) by (apply Z.ltb_ge; lia).
  unfold update, read, bind, rados_read. rewrite Hread, Hr'.
  cbn [ret]. rewrite Hver.
  destruct es as [|e0 es']; [discriminate|].
  cbv beta match.
  assert (Hinc' := Hinc). unfold inconsistent in Hinc'.
  remember (e0 :: es') as es eqn:Hes.
  destruct (lowest_nonempty_key (entries_ s)) as [cl|] eqn:Hcl;
    [clear Hcur | contradiction Hcur; reflexivity].
  destruct (lowest_nonempty_key es) as [nl|] eqn:Hnl; [|discriminate].
  destruct (max_key (entries_ s)) as [cm|] eqn:Hcm.
  2:{ unfold max_key in Hcm. apply lowest_nonempty_key_nonnil in Hcl.
      destruct (entries_ s) as [|c0 ctl]; [contradiction|].
      destruct (back_some c0 ctl) as [b Hb]. rewrite Hb in Hcm. discriminate. }
  destruct (max_key es) as [nm|] eqn:Hnm.
  2:{ unfold max_key in Hnm. rewrite Hes in Hnm.
      destruct (back_some e0 es') as [b Hb]. rewrite Hb in Hnm. discriminate. }
  cbn [below] in Hinc'. apply orb_false_iff in Hinc'.
  destruct Hinc' as [Htail Hhead].
  assert (Hnl0 := Hnl).
  unfold lowest_nonempty_key in Hcl, Hnl. unfold max_key in Hcm, Hnm.
  destruct (deref (entries_ s) (lowest_nomempty (entries_ s)))
    as [[cf cg]|]; [|discriminate].
  destruct (deref es (lowest_nomempty es)) as [[nf ng]|]; [|discriminate].
  destruct (back (entries_ s)) as [[cb cgb]|] eqn:Hbc; [|discriminate].
  destruct (back es) as [[nb ngb]|] eqn:Hbn; [|discriminate].
  cbn in Hcl, Hnl, Hcm, Hnm.
  inversion Hcl; inversion Hnl; inversion Hcm; inversion Hnm; subst cf nf cb nb.
  clear Hcl Hnl Hcm Hnm.
  rewrite (highest_empty_as_computed es (cl <? nl)).
  rewrite (new_entries_as_computed es (entries_ s) nm ngb cm cgb Hok Hu Huc
             Hbn Hbc Hhead).
  rewrite Htail, Hhead.
  intros Hval. exists cl, nl, cm.
  split; [reflexivity|]. split; [reflexivity|]. split; [reflexivity|].
  assert (Hdense : dense es = true ->
                   forall h, highest_empty_key es = Some h -> h = nl - 1).
  { intros Hd h Hh. exact (highest_empty_key_dense es h nl Hd Hh Hnl0). }
  remember (if cl <? nl then highest_empty_key es else None) as he.
  remember (entries_above cm es) as ne.
  unfold handle_empty_to, handle_new_gens, ret in *.
  destruct he as [h|]; destruct ne as [|n0 ntl];
    repeat first
      [ destruct_env
      | match goal with
        | |- context [failed ?a] =>
            let E := fresh "E" in
            destruct (failed a) eqn:E;
            [| apply failed_false in E; subst a]
        end ];
    proj_simpl; inversion Hval; subst;
    try discriminate;
    (split; [reflexivity | split; [reflexivity | exact Hdense]]).
Qed.

Lemma obj_version_eqb_refl v : obj_version_eqb v v = true.
Proof.
  unfold obj_version_eqb. rewrite Z.eqb_refl, String.eqb_refl. reflexivity.
Qed.

Lemma log_type_eqb_refl ty : log_type.eqb ty ty = true.
Proof. destruct ty; reflexivity. Qed.

(** [update] reads and calls handlers: it writes nothing and notifies
    nobody. *)
Lemma update_reads_only oid s w :
  filter is_store_write (trace (update env oid s w)) = [] /\
  filter is_notify (trace (update env oid s w)) = [].
Proof.
  unfold update, read, bind, rados_read, handle_empty_to, handle_new_gens,
    lderr, ret.
  destruct (env_read env oid (version s) w) as [[[r v2] body] w1].
  destruct (r <? 0); [destruct (r =? - ENOENT); split; reflexivity|].
  destruct body as [es|ec]; [|split; reflexivity].
  destruct (obj_version_eqb v2 (version s)); [split; reflexivity|].
  destruct es as [|e0 es']; [split; reflexivity|].
  cbv beta match.
  generalize (e0 :: es'). intros es.
  destruct (deref (entries_ s) _) as [[cf cg]|]; [|split; reflexivity].
  destruct (deref es _) as [[nf ng]|]; [|split; reflexivity].
  destruct (nf <? cf); [split; reflexivity|].
  destruct (back es) as [[nb ngb]|]; [|split; reflexivity].
  destruct (back (entries_ s)) as [[cb cgb]|]; [|split; reflexivity].
  destruct (nb <? cb); [split; reflexivity|].
  match goal with
  | |- context [match ?x with Some _ => _ | None => _ end] =>
      generalize x; intros he
  end.
  match goal with
  | |- context [match ?x with [] => _ | _ :: _ => _ end] =>
      generalize x; intros ne
  end.
  destruct he as [h|]; destruct ne as [|n0 ntl]; run_all; split; reflexivity.
Qed.

(** A successful [update] that leaves the version as it was has changed
    nothing and called no handler. *)
Lemma update_same_version oid s w s1 :
  value (update env oid s w) = (Ret 0, s1) ->
  version s1 = version s ->
  s1 = s /\ filter is_callback (trace (update env oid s w)) = [].
Proof.
  unfold update, read, bind, rados_read, lderr, ret.
  destruct (env_read env oid (version s) w) as [[[r v2] body] w1].
  destruct (r <? 0).
  { destruct (r =? - ENOENT); proj_simpl; intros H _; inversion H; auto. }
  destruct body as [es|ec];
    [|proj_simpl; intros H _; inversion H; auto].
  destruct (obj_version_eqb v2 (version s)) eqn:Hver;
    [proj_simpl; intros H _; inversion H; auto|].
  destruct es as [|e0 es'];
    [proj_simpl; intros H _; inversion H|].
  cbv beta match.
  generalize (e0 :: es'). intros es.
  destruct (deref (entries_ s) _) as [[cf cg]|];
    [|proj_simpl; intros H; inversion H].
  destruct (deref es _) as [[nf ng]|];
    [|proj_simpl; intros H; inversion H].
  destruct (nf <? cf); [proj_simpl; intros H; inversion H|].
  destruct (back es) as [[nb ngb]|];
    [|proj_simpl; intros H; inversion H].
  destruct (back (entries_ s)) as [[cb cgb]|];
    [|proj_simpl; intros H; inversion H].
  destruct (nb <? cb); [proj_simpl; intros H; inversion H|].
  intros Hval Hv. exfalso.
  assert (Hs1 : version s1 = v2).
  { revert Hval. unfold handle_empty_to, handle_new_gens.
    match goal with
    | |- context [match ?x with Some _ => _ | None => _ end] =>
        generalize x; intros he
    end.
    match goal with
    | |- context [match ?x with [] => _ | _ :: _ => _ end] =>
        generalize x; intros ne
    end.
    destruct he as [h|]; destruct ne as [|n0 ntl]; run_all;
      proj_simpl; intros H; inversion H; reflexivity. }
  rewrite Hv in Hs1. rewrite <- Hs1, obj_version_eqb_refl in Hver.
  discriminate.
Qed.

(** ** new_backing and empty_to before the first write *)

(** C5: when, after the refresh that [new_backing] starts with, the last
    entry already has the requested type, [new_backing] returns success
    and does nothing beyond that refresh: no write, no notify, no version
    advance, and no handler call when the refresh found nothing new. *)
Theorem new_backing_same_type_is_noop :
  forall oid ty s w s1 w1 t1 k g,
    update env oid s w = ((Ret 0, s1), w1, t1) ->
    back (entries_ s1) = Some (k, g) ->
    type g = ty ->
    new_backing env oid ty s w = ((Ret 0, s1), w1, t1) /\
    filter is_store_write t1 = [] /\
    filter is_notify t1 = [] /\
    (version s1 = version s -> s1 = s /\ filter is_callback t1 = []).
Proof.
  intros oid ty s w s1 w1 t1 k g Hupd Hback Hty.
  destruct (update_reads_only oid s w) as [Hw Hn].
  pose proof (update_same_version oid s w s1) as Hsame.
  rewrite Hupd in Hw, Hn, Hsame. proj_simpl.
  split; [|split; [exact Hw | split; [exact Hn | auto]]].
  unfold new_backing, bind. rewrite Hupd. cbn [failed Z.eqb negb].
  change (Z.to_nat max_tries) with 10%nat. cbn [new_backing_loop].
  rewrite Hback, Hty, log_type_eqb_refl. unfold ret.
  rewrite !app_nil_r. reflexivity.
Qed.

(** C6: after the refresh that [empty_to] starts with, a [gen_id] at or
    above the maximum key makes [empty_to] return EINVAL, and a [gen_id]
    below the lowest key makes it return success; in both cases nothing is
    written, nobody is notified, and entries and version are those of the
    refresh (those held before, when the refresh found the same
    version). *)
Theorem empty_to_head_or_below_tail :
  forall oid gen_id s w s1 w1 t1,
    update env oid s w = ((Ret 0, s1), w1, t1) ->
    (forall h g,
        back (entries_ s1) = Some (h, g) -> h <= gen_id ->
        empty_to env oid gen_id s w
        = ((Ret EINVAL, s1), w1,
           t1 ++ [EvLog "Attempt to trim beyond the possible."])) /\
    (forall k0 g0 tl,
        entries_ s1 = (k0, g0) :: tl -> flat_map_ok (entries_ s1) = true ->
        gen_id < k0 ->
        empty_to env oid gen_id s w = ((Ret 0, s1), w1, t1)) /\
    filter is_store_write t1 = [] /\
    filter is_notify t1 = [] /\
    (version s1 = version s -> s1 = s).
Proof.
  intros oid gen_id s w s1 w1 t1 Hupd.
  destruct (update_reads_only oid s w) as [Hw Hn].
  pose proof (update_same_version oid s w s1) as Hsame.
  rewrite Hupd in Hw, Hn, Hsame. proj_simpl.
  split; [|split; [|split; [exact Hw | split; [exact Hn|]]]].
  - intros h g Hback Hh.
    unfold empty_to, bind. rewrite Hupd. cbn [failed Z.eqb negb].
    change (Z.to_nat max_tries) with 10%nat. cbn [empty_to_loop].
    rewrite Hback.
    replace (h <=? gen_id) with true by (symmetry; apply Z.leb_le; lia).
    unfold bind, lderr, ret. cbn [app]. reflexivity.
  - intros k0 g0 tl Hes Hok Hlt.
    destruct (back_some (k0, g0) tl) as [[h g] Hback].
    rewrite <- Hes in Hback.
    assert (Hk : k0 <= h).
    { apply (flat_map_back_max (entries_ s1) h g Hok Hback (k0, g0)).
      rewrite Hes. left. reflexivity. }
    unfold empty_to, bind. rewrite Hupd. cbn [failed Z.eqb negb].
    change (Z.to_nat max_tries) with 10%nat. cbn [empty_to_loop].
    rewrite Hback.
    replace (h <=? gen_id) with false by (symmetry; apply Z.leb_gt; lia).
    rewrite Hes. cbn [upper_bound].
    replace (k0 <=? gen_id) with false by (symmetry; apply Z.leb_gt; lia).
    cbn [Nat.eqb]. unfold ret. rewrite !app_nil_r. reflexivity.
  - intros Hv. apply Hsame; auto.
Qed.

(** ** setup *)

(** C10: when the metadata state was read or created and arming the watch
    fails, [setup] logs that, still calls [handle_init] with the entries
    from the lowest non-empty one on, and returns what [handle_init]
    returns. *)
Theorem setup_watch_failure_still_delivers :
  forall oid get_oid shards def s w s1 s1' w1 t1 r cookie w2 ec w3,
    setup_load env oid get_oid shards def s w = ((Expected s1, s1'), w1, t1) ->
    env_watch env oid w1 = (r, cookie, w2) ->
    r < 0 ->
    env_handle_init env
      (skipn (lowest_nomempty (entries_ s1)) (entries_ s1)) w2 = (ec, w3) ->
    setup env oid get_oid shards def s w
    = ((ec, mk_mgr (entries_ s1) (version s1) cookie), w3,
       t1 ++ [EvWatch oid r cookie;
              EvLog "failed to set watch";
              EvLog "failed to re-establish watch, unsafe to continue";
              EvHandleInit
                (skipn (lowest_nomempty (entries_ s1)) (entries_ s1)) ec]).
Proof.
  intros oid get_oid shards def s w s1 s1' w1 t1 r cookie w2 ec w3
    Hload Hwatch Hr Hinit.
  unfold setup, bind. rewrite Hload.
  unfold setup_deliver, watch, bind, watch2, handle_init, lderr, ret.
  rewrite Hwatch.
  replace (r <? 0) with true by (symmetry; apply Z.ltb_lt; lia).
  assert (Hf : failed (- r) = true)
    by (unfold failed; apply negb_true_iff, Z.eqb_neq; lia).
  rewrite Hf. cbn [entries_]. rewrite Hinit. cbn [app]. reflexivity.
Qed.

(** ** The retry loops of new_backing and empty_to *)

Lemma write_results_app t1 t2 :
  write_results (t1 ++ t2) = write_results t1 ++ write_results t2.
Proof.
  induction t1 as [|e t1 IH]; [reflexivity|].
  destruct e; cbn [app write_results]; rewrite ?IH; reflexivity.
Qed.

Lemma write_results_no_store_write t :
  filter is_store_write t = [] -> write_results t = [].
Proof.
  induction t as [|e t IH]; [reflexivity|].
  destruct e; cbn [filter is_store_write write_results]; intros H;
    try discriminate; auto.
Qed.

(** [write] makes one CAS write; it comes back canceled only when that
    write was canceled. *)
Lemma write_run oid e s w :
  exists r,
    write_results (trace (write env oid e s w)) = [r] /\
    forall ec s',
      value (write env oid e s w) = (Ret ec, s') ->
      is_canceled ec = true -> r = - ECANCELED.
Proof.
  unfold write, bind, rados_write.
  destruct (env_write env oid (version s) e w) as [r w1].
  exists r.
  destruct (r =? 0) eqn:E0.
  { unfold ret. proj_simpl. split; [reflexivity|].
    intros ec s' H Hc. inversion H; subst. discriminate. }
  destruct ((r <? 0) && negb (r =? - ECANCELED)) eqn:E1.
  { unfold lderr, ret, bind. proj_simpl. split; [reflexivity|].
    intros ec s' H Hc. inversion H; subst.
    apply andb_prop in E1. destruct E1 as [_ E1].
    apply negb_true_iff, Z.eqb_neq in E1.
    unfold is_canceled in Hc. apply Z.eqb_eq in Hc. lia. }
  destruct (r =? - ECANCELED) eqn:E2.
  - apply Z.eqb_eq in E2. unfold bind.
    destruct (update_reads_only oid s w1) as [Hw _].
    destruct (update env oid s w1) as [[[oc s1] w2] t2].
    proj_simpl. apply write_results_no_store_write in Hw.
    split.
    + destruct oc as [ec|]; [destruct (failed ec)|]; unfold ret;
        proj_simpl; rewrite app_nil_r; cbn [write_results]; rewrite Hw;
        reflexivity.
    + intros; assumption.
  - unfold ret. proj_simpl. split; [reflexivity|].
    intros ec s' H Hc. inversion H; subst. discriminate.
Qed.

Lemma left_after_step tries0 t1 t2 ec tries :
  write_results t1 = [- ECANCELED] ->
  0 <= tries0 ->
  left_after (tries0 + 1) t2 ec tries ->
  left_after tries0 (t1 ++ t2) ec tries.
Proof.
  intros H1 H0 (Hr & (r' & Hw & Hc) & Hm).
  split; [lia|]. split; [|exact Hm].
  exists r'. split; [|exact Hc].
  rewrite write_results_app, H1, Hw.
  replace (Z.to_nat (tries - tries0 - 1))
    with (S (Z.to_nat (tries - (tries0 + 1) - 1))) by lia.
  reflexivity.
Qed.

Lemma left_after_last tries0 r t ec :
  write_results t = [r] ->
  0 <= tries0 < max_tries ->
  (is_canceled ec = true -> r = - ECANCELED) ->
  is_canceled ec && (tries0 + 1 <? max_tries) = false ->
  left_after tries0 t ec (tries0 + 1).
Proof.
  intros Hw H0 Hc Hcond.
  split; [lia|]. split.
  - exists r. split; [|exact Hc].
    rewrite Hw. replace (tries0 + 1 - tries0 - 1) with 0 by lia.
    reflexivity.
  - intros Hcan. rewrite Hcan in Hcond. cbn [andb] in Hcond.
    apply Z.ltb_ge in Hcond. lia.
Qed.

(** The loop of [new_backing], with fuel for the rounds [max_tries]
    allows: it never runs out of fuel, and when it is left by its
    condition it is left as [left_after] says. *)
Lemma new_backing_loop_retries oid ty fuel :
  forall tries new_entries s w ec tries' ne' s',
    0 <= tries < max_tries ->
    max_tries - tries - 1 <= Z.of_nat fuel ->
    value (new_backing_loop env oid fuel ty tries new_entries s w)
      = (Left ec tries' ne', s') ->
    left_after tries
      (trace (new_backing_loop env oid fuel ty tries new_entries s w))
      ec tries'.
Proof.
  induction fuel as [|fuel IH];
    intros tries new_entries s w ec tries' ne' s' Ht Hfuel;
    cbn [new_backing_loop];
    (destruct (back (entries_ s)) as [[lf ls]|];
     [|unfold ret; proj_simpl; discriminate]);
    (destruct (log_type.eqb (type ls) ty);
     [unfold ret; proj_simpl; discriminate|]);
    unfold bind;
    match goal with
    | |- context [write env oid ?e s w] =>
        destruct (write_run oid e s w) as (r & Hw & Hcan);
        destruct (write env oid e s w) as [[[oc s1] w1] t1]
    end;
    proj_simpl;
    (destruct oc as [ec1|]; [|unfold ret; proj_simpl; discriminate]);
    destruct (is_canceled ec1 && (tries + 1 <? max_tries)) eqn:Hcond.
  - apply andb_prop in Hcond. destruct Hcond as [_ Hlt].
    apply Z.ltb_lt in Hlt. cbn [Z.of_nat] in Hfuel. lia.
  - unfold ret. proj_simpl. intros H. inversion H; subst.
    rewrite app_nil_r.
    apply (left_after_last tries r);
      [exact Hw | lia | intros Hc; eauto | exact Hcond].
  - apply andb_prop in Hcond. destruct Hcond as [Hc Hlt].
    apply Z.ltb_lt in Hlt.
    specialize (IH (tries + 1)
                  (emplace (u64_succ lf) (mk_gen (u64_succ lf) ty false)
                     new_entries) s1 w1 ec tries' ne' s').
    destruct (new_backing_loop env oid fuel ty (tries + 1) _ s1 w1)
      as [[ex s2] w2] eqn:Hloop.
    proj_simpl. intros H. inversion H; subst.
    apply (left_after_step tries); [|lia|].
    + rewrite Hw. f_equal. eauto.
    + apply IH; [lia | lia | reflexivity].
  - unfold ret. proj_simpl. intros H. inversion H; subst.
    rewrite app_nil_r.
    apply (left_after_last tries r);
      [exact Hw | lia | intros Hc; eauto | exact Hcond].
Qed.

Lemma empty_to_loop_retries oid gen_id fuel :
  forall tries newtail s w ec tries' nt' s',
    0 <= tries < max_tries ->
    max_tries - tries - 1 <= Z.of_nat fuel ->
    value (empty_to_loop env oid fuel gen_id tries newtail s w)
      = (Left ec tries' nt', s') ->
    left_after tries
      (trace (empty_to_loop env oid fuel gen_id tries newtail s w))
      ec tries'.
Proof.
  induction fuel as [|fuel IH];
    intros tries newtail s w ec tries' nt' s' Ht Hfuel;
    cbn [empty_to_loop];
    (destruct (back (entries_ s)) as [[lf ls]|];
     [|unfold ret; proj_simpl; discriminate]);
    (destruct (lf <=? gen_id);
     [unfold bind, lderr, ret; proj_simpl; discriminate|]);
    (destruct (Nat.eqb (upper_bound (entries_ s) gen_id) O);
     [unfold ret; proj_simpl; discriminate|]);
    destruct (mark_empty (upper_bound (entries_ s) gen_id) (entries_ s)
                newtail) as [es nt];
    unfold bind;
    destruct (write_run oid es s w) as (r & Hw & Hcan);
    destruct (write env oid es s w) as [[[oc s1] w1] t1];
    proj_simpl;
    (destruct oc as [ec1|]; [|unfold ret; proj_simpl; discriminate]);
    destruct (is_canceled ec1 && (tries + 1 <? max_tries)) eqn:Hcond.
  - apply andb_prop in Hcond. destruct Hcond as [_ Hlt].
    apply Z.ltb_lt in Hlt. cbn [Z.of_nat] in Hfuel. lia.
  - unfold ret. proj_simpl. intros H. inversion H; subst.
    rewrite app_nil_r.
    apply (left_after_last tries r);
      [exact Hw | lia | intros Hc; eauto | exact Hcond].
  - apply andb_prop in Hcond. destruct Hcond as [Hc Hlt].
    apply Z.ltb_lt in Hlt.
    specialize (IH (tries + 1) nt s1 w1 ec tries' nt' s').
    destruct (empty_to_loop env oid fuel gen_id (tries + 1) nt s1 w1)
      as [[ex s2] w2] eqn:Hloop.
    proj_simpl. intros H. inversion H; subst.
    apply (left_after_step tries); [|lia|].
    + rewrite Hw. f_equal. eauto.
    + apply IH; [lia | lia | reflexivity].
  - unfold ret. proj_simpl. intros H. inversion H; subst.
    rewrite app_nil_r.
    apply (left_after_last tries r);
      [exact Hw | lia | intros Hc; eauto | exact Hcond].
Qed.

(** [new_backing] as C4 has it: the writes of its loop are canceled ones
    followed by the last; a loop left with "canceled" has made
    [max_tries] writes, all canceled; and an error the loop is left with
    is what [new_backing] returns, with nothing after the loop but the log
    line. *)
Lemma new_backing_retries oid ty s w s1 w1 t1 ec tries ne s2 w2 t2 :
  update env oid s w = ((Ret 0, s1), w1, t1) ->
  new_backing_loop env oid (Z.to_nat max_tries) ty 0 [] s1 w1
    = ((Left ec tries ne, s2), w2, t2) ->
  left_after 0 t2 ec tries /\
  (failed ec = true ->
   exists msg,
     new_backing env oid ty s w = ((Ret ec, s2), w2, t1 ++ t2 ++ [EvLog msg])).
Proof.
  intros Hupd Hloop. split.
  - pose proof (new_backing_loop_retries oid ty (Z.to_nat max_tries) 0 [] s1 w1
                  ec tries ne s2) as H.
    rewrite Hloop in H. proj_simpl.
    apply H; [unfold max_tries; lia | unfold max_tries; lia | reflexivity].
  - intros Hf. unfold new_backing, bind. rewrite Hupd.
    cbn [failed Z.eqb negb]. rewrite Hloop.
    destruct (max_tries <=? tries); unfold bind, lderr, ret; cbn [app].
    + eexists. reflexivity.
    + rewrite Hf. cbn [app]. eexists. reflexivity.
Qed.

(** The same for [empty_to]. *)
Lemma empty_to_retries oid gen_id s w s1 w1 t1 ec tries nt s2 w2 t2 :
  update env oid s w = ((Ret 0, s1), w1, t1) ->
  empty_to_loop env oid (Z.to_nat max_tries) gen_id 0 0 s1 w1
    = ((Left ec tries nt, s2), w2, t2) ->
  left_after 0 t2 ec tries /\
  (failed ec = true ->
   exists msg,
     empty_to env oid gen_id s w = ((Ret ec, s2), w2, t1 ++ t2 ++ [EvLog msg])).
Proof.
  intros Hupd Hloop. split.
  - pose proof (empty_to_loop_retries oid gen_id (Z.to_nat max_tries) 0 0 s1 w1
                  ec tries nt s2) as H.
    rewrite Hloop in H. proj_simpl.
    apply H; [unfold max_tries; lia | unfold max_tries; lia | reflexivity].
  - intros Hf. unfold empty_to, bind. rewrite Hupd.
    cbn [failed Z.eqb negb]. rewrite Hloop.
    destruct (max_tries <=? tries); unfold bind, lderr, ret; cbn [app].
    + eexists. reflexivity.
    + rewrite Hf. cbn [app]. eexists. reflexivity.
Qed.

(** When the first write of [new_backing] succeeds, the notify follows,
    with a timeout of 10 seconds, and when the notify does not fail
    [handle_new_gens] is called with the one entry appended; what the
    handler returns is dropped. *)
Lemma new_backing_first_write_succeeds oid ty s w s1 w1 t1 k g w2 r w3 ec w4 :
  let newgen := mk_gen (u64_succ k) ty false in
  let es := emplace (u64_succ k) newgen (entries_ s1) in
  update env oid s w = ((Ret 0, s1), w1, t1) ->
  back (entries_ s1) = Some (k, g) ->
  log_type.eqb (type g) ty = false ->
  env_write env oid (version s1) es w1 = (0, w2) ->
  env_notify env oid 10000 w2 = (r, w3) ->
  0 <= r ->
  env_handle_new_gens env [(u64_succ k, newgen)] w3 = (ec, w4) ->
  new_backing env oid ty s w
  = ((Ret 0, mk_mgr es (version_inc (version s1)) (watchcookie s1)), w4,
     t1 ++ [EvWrite oid (version s1) es 0;
            EvNotify oid 10000 r;
            EvHandleNewGens [(u64_succ k, newgen)] ec]).
Proof.
  intros newgen es Hupd Hback Hty Hwrite Hnotify Hr Hgens.
  subst es newgen.
  unfold new_backing, bind. rewrite Hupd. cbn [failed Z.eqb negb].
  change (Z.to_nat max_tries) with 10%nat. cbn [new_backing_loop].
  rewrite Hback, Hty. unfold write, rados_write. unfold bind.
  cbv beta zeta. rewrite Hwrite. cbn [Z.eqb]. unfold ret.
  cbn [is_canceled andb Z.eqb]. unfold ECANCELED at 1. cbn [Z.eqb andb].
  unfold rgw_rados_notify, handle_new_gens, lderr.
  cbn [Z.leb Z.add Z.compare Pos.compare Pos.compare_cont max_tries failed
       Z.eqb negb emplace].
  rewrite Hnotify.
  replace (r <? 0) with false by (symmetry; apply Z.ltb_ge; lia).
  rewrite Hgens. cbn [app]. reflexivity.
Qed.

(** ** The retry loop of remove_empty *)

(** A round of the loop of [remove_empty] that starts with the lock
    already moved from never reaches the write: it returns from inside the
    loop, by the assertion, by an error of [log_remove], or by the lock. *)
Lemma remove_empty_loop_later_round oid get_oid shards fuel ln tries es s w :
  exists oc,
    value (remove_empty_loop env oid get_oid shards fuel ln tries es false s w)
    = (Returned oc, s).
Proof.
  destruct fuel; cbn [remove_empty_loop]; unfold bind;
    destruct (remove_gens env get_oid shards es w) as [[[oc|] w1] t1];
    unfold ret; proj_simpl; eexists; reflexivity.
Qed.

(** So the loop of [remove_empty] makes one write at most: it is never
    left by its condition after a second round, and never with
    "canceled". *)
Lemma remove_empty_loop_one_write oid get_oid shards fuel ln es s w
    ec tries' es' s' :
  value (remove_empty_loop env oid get_oid shards (S fuel) ln 0 es true s w)
  = (Left ec tries' es', s') ->
  tries' = 1 /\ is_canceled ec = false.
Proof.
  cbn [remove_empty_loop]. unfold bind.
  destruct (remove_gens env get_oid shards es w) as [[[oc|] w1] t1];
    [unfold ret; proj_simpl; discriminate|].
  cbn [negb].
  destruct (write env oid _ s w1) as [[[oc s1] w2] t2].
  destruct oc as [ec1|]; [|unfold ret; proj_simpl; discriminate].
  destruct (is_canceled ec1 && (0 + 1 <? max_tries)) eqn:Hcond.
  - destruct (remove_empty_loop_later_round oid get_oid shards fuel ln (0 + 1)
                (skipn (find_key (entries_ s) ln) (entries_ s)) s1 w2)
      as [oc Hoc].
    destruct (remove_empty_loop env oid get_oid shards fuel ln (0 + 1) _ false
                s1 w2) as [[ex s2] w3].
    proj_simpl. inversion Hoc; subst. discriminate.
  - unfold ret. proj_simpl. intros H. inversion H; subst.
    split; [reflexivity|].
    destruct (is_canceled ec); [discriminate | reflexivity].
Qed.

(** * Further properties of the code *)

Lemma failed_nonzero ec : failed ec = true -> ec <> 0.
Proof.
  unfold failed. intros H. apply negb_true_iff in H.
  apply Z.eqb_neq in H. exact H.
Qed.

(** The cases of a membership in an explicit list, without those that
    cannot be. *)
Ltac split_in H :=
  cbn [In] in H;
  repeat match type of H with
         | _ \/ _ => destruct H as [H|H]; [try discriminate H|]
         end;
  try contradiction.

(** The tests of the code that are closed terms, decided; then the
    matches that can go. *)
Ltac decide_tests :=
  cbv beta iota zeta;
  repeat match goal with
         | |- context [if ?c then _ else _] =>
             let v := eval vm_compute in c in
             match v with
             | true => change c with true
             | false => change c with false
             end;
             cbv beta iota zeta
         end.

(** The runs still to come, each replaced by its result. *)
Ltac destruct_runs :=
  cbv beta iota;
  repeat (match goal with
          | |- context [match ?X with (_, _) => _ end] =>
              lazymatch X with
              | (_, _) => fail
              | context [match _ with (_, _) => _ end] => fail
              | _ => destruct X as [[? ?] ?]
              end
          end; cbv beta iota).

Lemma deref_back (es : entries_t) i e :
  deref es i = Some e -> exists b, back es = Some b.
Proof.
  destruct es as [|e0 tl]; [destruct i; discriminate|].
  intros _. apply back_some.
Qed.

(** ** probe_shard *)

(** X1: what each answer of [probe_shard] rests on.  FIFO: the cls_log
    header was read and is zero, the object opened as a FIFO and its
    listing succeeded; OMAP: the header was read and is not zero, no FIFO
    was handed back and the cls_log listing succeeded; in both cases the
    flag is whether the listing gave an entry.  Absent: the object does
    not exist, or it has a zero header and no FIFO.  Absent and corrupt
    never report entries, and corrupt is always logged. *)
Theorem probe_shard_classification :
  forall oid w,
    let run := probe_shard env oid w in
    match fst (value run) with
    | shard_check.fifo =>
        exists r1 r2 r3,
          trace run = [EvClsLogInfo oid r1 false; EvFifoOpen oid r2 true;
                       EvFifoList oid r3 (snd (value run))] /\
          0 <= r1 /\ 0 <= r3 /\
          (0 <= r2 \/ r2 = - ENOENT \/ r2 = - ENODATA)
    | shard_check.omap =>
        exists r1 r2 r3,
          trace run = [EvClsLogInfo oid r1 true; EvFifoOpen oid r2 false;
                       EvClsLogList oid r3 (snd (value run))] /\
          0 <= r1 /\ 0 <= r3 /\
          (0 <= r2 \/ r2 = - ENOENT \/ r2 = - ENODATA)
    | shard_check.dne =>
        snd (value run) = false /\
        ((exists h, trace run = [EvClsLogInfo oid (- ENOENT) h]) \/
         (exists r1 r2,
             trace run = [EvClsLogInfo oid r1 false; EvFifoOpen oid r2 false] /\
             0 <= r1 /\ (0 <= r2 \/ r2 = - ENOENT \/ r2 = - ENODATA)))
    | shard_check.corrupt =>
        snd (value run) = false /\
        exists msg, last (trace run) (EvClsLogInfo oid 0 false) = EvLog msg
    end.
Proof.
  intros oid w run. subst run.
  unfold probe_shard, bind, cls_log_info, fifo_open, fifo_list, cls_log_list,
    lderr, ret.
  destruct (env_cls_log_info env oid w) as [[r1 h] w1].
  destruct (r1 =? - ENOENT) eqn:E1.
  { apply Z.eqb_eq in E1. subst r1. proj_simpl.
    split; [reflexivity|]. left. exists h. reflexivity. }
  apply Z.eqb_neq in E1.
  destruct (r1 <? 0) eqn:E2.
  { proj_simpl. split; [reflexivity|]. eexists. reflexivity. }
  apply Z.ltb_ge in E2.
  destruct (env_fifo_open env oid w1) as [[r2 f] w2].
  destruct ((r2 <? 0) && negb ((r2 =? - ENOENT) || (r2 =? - ENODATA))) eqn:E3.
  { proj_simpl. split; [reflexivity|]. eexists. reflexivity. }
  assert (Hr2 : 0 <= r2 \/ r2 = - ENOENT \/ r2 = - ENODATA).
  { destruct (Z.ltb_spec r2 0) as [Hlt|Hge]; [|left; exact Hge].
    cbn [andb] in E3. apply negb_false_iff, orb_true_iff in E3.
    destruct E3 as [E3|E3]; apply Z.eqb_eq in E3; auto. }
  destruct f, h; cbn [andb].
  - proj_simpl. split; [reflexivity|]. eexists. reflexivity.
  - destruct (env_fifo_list env oid w2) as [[r3 ne] w3].
    destruct (r3 <? 0) eqn:E4; proj_simpl.
    + split; [reflexivity|]. eexists. reflexivity.
    + apply Z.ltb_ge in E4. exists r1, r2, r3. auto.
  - destruct (env_cls_log_list env oid w2) as [[r3 ne] w3].
    destruct (r3 <? 0) eqn:E4; proj_simpl.
    + split; [reflexivity|]. eexists. reflexivity.
    + apply Z.ltb_ge in E4. exists r1, r2, r3. auto.
  - proj_simpl. split; [reflexivity|]. right. exists r1, r2. auto.
Qed.

(** ** log_backing_type *)

Lemma all_absent_all_agree (get_oid : Z -> string) c n :
  forall i w, all_absent env get_oid n i w = true ->
              all_agree env get_oid c n i w = true.
Proof.
  induction n as [|n IH]; intros i w H; [reflexivity|].
  cbn [all_absent all_agree] in *.
  apply andb_prop in H. destruct H as [H1 H2].
  rewrite H1, (IH _ _ H2). reflexivity.
Qed.

(** The loop from any point on: its only error is EIO, it writes nothing,
    and the classification it ends with is the one it started with or, if
    it started with none, the one of the shards present. *)
Lemma log_backing_type_loop_result (get_oid : Z -> string) n :
  forall i check w,
    check <> shard_check.corrupt ->
    match value (log_backing_type_loop env get_oid n i check w) with
    | Unexpected ec => ec = EIO
    | Expected c' =>
        c' <> shard_check.corrupt /\
        (if shard_check.eqb check shard_check.dne
         then (if all_absent env get_oid n i w then c' = shard_check.dne
               else c' <> shard_check.dne /\
                    all_agree env get_oid c' n i w = true)
         else c' = check /\ all_agree env get_oid check n i w = true)
    end /\
    filter is_store_write
      (trace (log_backing_type_loop env get_oid n i check w)) = [].
Proof.
  induction n as [|n IH]; intros i check w Hck.
  - cbn [log_backing_type_loop all_absent all_agree]. unfold ret. proj_simpl.
    split; [|reflexivity]. split; [exact Hck|].
    destruct (shard_check.eqb check shard_check.dne) eqn:E.
    + destruct check; try discriminate. reflexivity.
    + split; reflexivity.
  - rewrite log_backing_type_loop_S. cbn [all_absent all_agree].
    pose proof (probe_shard_reads_only (get_oid i) w) as Hro.
    destruct (probe_shard env (get_oid i) w) as [[[c e] w1] t1].
    proj_simpl.
    assert (Hstep : forall ck,
               ck <> shard_check.corrupt ->
               match value (log_backing_type_loop env get_oid n (i + 1) ck w1)
               with
               | Unexpected ec => ec = EIO
               | Expected c' =>
                   c' <> shard_check.corrupt /\
                   (if shard_check.eqb ck shard_check.dne
                    then (if all_absent env get_oid n (i + 1) w1
                          then c' = shard_check.dne
                          else c' <> shard_check.dne /\
                               all_agree env get_oid c' n (i + 1) w1 = true)
                    else c' = ck /\
                         all_agree env get_oid ck n (i + 1) w1 = true)
               end /\
               filter is_store_write
                 (t1 ++ trace (log_backing_type_loop env get_oid n (i + 1)
                                 ck w1)) = []).
    { intros ck Hc. destruct (IH (i + 1) ck w1 Hc) as [Hv Ht].
      proj_simpl.
      split; [exact Hv|]. rewrite filter_app, Hro, Ht. reflexivity. }
    destruct c; cbn [shard_check.eqb negb orb andb].
    + (* this shard is absent *)
      specialize (Hstep check Hck).
      destruct (log_backing_type_loop env get_oid n (i + 1) check w1)
        as [[res w2] t2].
      proj_simpl. exact Hstep.
    + (* an OMAP shard *)
      destruct check; cbn [shard_check.eqb negb];
        try contradiction; unfold bind, lderr, ret; proj_simpl.
      * specialize (Hstep shard_check.omap ltac:(discriminate)).
        destruct (log_backing_type_loop env get_oid n (i + 1)
                    shard_check.omap w1) as [[res w2] t2].
        proj_simpl. destruct Hstep as [Hv Ht]. split; [|exact Ht].
        destruct res as [c'|ec]; [|exact Hv].
        destruct Hv as [Hc [-> Hag]]. cbn [shard_check.eqb orb andb].
        repeat split; try discriminate. exact Hag.
      * specialize (Hstep shard_check.omap ltac:(discriminate)).
        destruct (log_backing_type_loop env get_oid n (i + 1)
                    shard_check.omap w1) as [[res w2] t2].
        proj_simpl. exact Hstep.
      * split; [reflexivity|]. rewrite filter_app, Hro. reflexivity.
    + (* a FIFO shard *)
      destruct check; cbn [shard_check.eqb negb];
        try contradiction; unfold bind, lderr, ret; proj_simpl.
      * specialize (Hstep shard_check.fifo ltac:(discriminate)).
        destruct (log_backing_type_loop env get_oid n (i + 1)
                    shard_check.fifo w1) as [[res w2] t2].
        proj_simpl. destruct Hstep as [Hv Ht]. split; [|exact Ht].
        destruct res as [c'|ec]; [|exact Hv].
        destruct Hv as [Hc [-> Hag]]. cbn [shard_check.eqb orb andb].
        repeat split; try discriminate. exact Hag.
      * split; [reflexivity|]. rewrite filter_app, Hro. reflexivity.
      * specialize (Hstep shard_check.fifo ltac:(discriminate)).
        destruct (log_backing_type_loop env get_oid n (i + 1)
                    shard_check.fifo w1) as [[res w2] t2].
        proj_simpl. exact Hstep.
    + (* a corrupt shard *)
      unfold ret. proj_simpl. split; [reflexivity|].
      rewrite app_nil_r. exact Hro.
Qed.

(** X2: when [log_backing_type] returns a type and some probed shard was
    present, every probed shard was absent or of that type, whatever the
    default; and nothing was created or written. *)
Theorem log_backing_type_agreement :
  forall def shards (get_oid : Z -> string) w ty,
    value (log_backing_type env def shards get_oid w) = Expected ty ->
    all_absent env get_oid (Z.to_nat shards) 0 w = false ->
    all_agree env get_oid (check_of ty) (Z.to_nat shards) 0 w = true /\
    filter is_store_write (trace (log_backing_type env def shards get_oid w))
    = [].
Proof.
  intros def shards get_oid w ty Hv Habs.
  destruct (log_backing_type_loop_result get_oid (Z.to_nat shards) 0
              shard_check.dne w ltac:(discriminate)) as [Hres Ht].
  unfold log_backing_type, bind in *.
  destruct (log_backing_type_loop env get_oid (Z.to_nat shards) 0
              shard_check.dne w) as [[res w1] t1].
  proj_simpl. rewrite Habs in Hres.
  destruct res as [c'|ec]; [|unfold ret in Hv; proj_simpl; discriminate].
  destruct Hres as [Hc [Hd Hag]]. cbn [shard_check.eqb] in *.
  destruct c'; try contradiction; cbn [shard_check.eqb] in *;
    unfold ret in *; proj_simpl; inversion Hv; subst;
    rewrite app_nil_r; auto.
Qed.

(** X3: the errors of [log_backing_type].  It fails with EIO, or else
    every probed shard was absent, the default is FIFO, and the error is
    that of the one FIFO::create, on shard 0's object. *)
Theorem log_backing_type_errors :
  forall def shards (get_oid : Z -> string) w ec,
    value (log_backing_type env def shards get_oid w) = Unexpected ec ->
    ec = EIO \/
    (def = log_type.fifo /\
     all_absent env get_oid (Z.to_nat shards) 0 w = true /\
     exists r,
       r < 0 /\ ec = - r /\
       filter is_store_write
         (trace (log_backing_type env def shards get_oid w))
       = [EvFifoCreate (get_oid 0) r]).
Proof.
  intros def shards get_oid w ec Hv.
  destruct (log_backing_type_loop_result get_oid (Z.to_nat shards) 0
              shard_check.dne w ltac:(discriminate)) as [Hres Ht].
  unfold log_backing_type, bind in *.
  destruct (log_backing_type_loop env get_oid (Z.to_nat shards) 0
              shard_check.dne w) as [[res w1] t1].
  proj_simpl.
  destruct res as [c'|ec'];
    [|unfold ret in Hv; proj_simpl; inversion Hv; subst; auto].
  destruct Hres as [Hc Hd]. cbn [shard_check.eqb] in Hd.
  destruct c'; try contradiction; cbn [shard_check.eqb] in *;
    try (unfold ret in Hv; proj_simpl; discriminate).
  destruct (all_absent env get_oid (Z.to_nat shards) 0 w) eqn:Habs;
    [|destruct Hd as [Hd _]; contradiction].
  unfold handle_dne, bind, fifo_create, lderr, ret in *.
  destruct def; [proj_simpl; discriminate|].
  destruct (env_fifo_create env (get_oid 0) w1) as [r w2].
  destruct (r <? 0) eqn:Er; proj_simpl; [|discriminate].
  apply Z.ltb_lt in Er. inversion Hv; subst.
  right. split; [reflexivity|]. split; [reflexivity|].
  exists r. split; [exact Er|]. split; [reflexivity|].
  rewrite filter_app, Ht. reflexivity.
Qed.

(** ** log_remove *)

Lemma remove_parts_calls (get_oid : Z -> string) leave_zero info n :
  forall j ec w,
    Forall (log_remove_call get_oid leave_zero)
      (trace (remove_parts env info n j ec w)) /\
    filter is_clear (trace (remove_parts env info n j ec w)) = [].
Proof.
  induction n as [|n IH]; intros j ec w.
  - split; [constructor | reflexivity].
  - cbn [remove_parts]. unfold bind, rados_remove, lderr.
    destruct (env_remove env (part_oid info j) w) as [subr w1].
    destruct ((subr <? 0) && negb (subr =? - ENOENT)).
    + destruct (IH (j + 1) (first_error ec subr) w1) as [Hall Hcl].
      destruct (remove_parts env info n (j + 1) (first_error ec subr) w1)
        as [[ec' w2] t2].
      proj_simpl. split; [|exact Hcl].
      constructor; [exact I|]. constructor; [exact I | exact Hall].
    + destruct (IH (j + 1) ec w1) as [Hall Hcl].
      destruct (remove_parts env info n (j + 1) ec w1) as [[ec' w2] t2].
      proj_simpl. split; [|exact Hcl].
      constructor; [exact I | exact Hall].
Qed.

Lemma log_remove_shard_calls (get_oid : Z -> string) leave_zero i ec w :
  Forall (log_remove_call get_oid leave_zero)
    (trace (log_remove_shard env get_oid leave_zero i ec w)) /\
  (length (filter is_clear
             (trace (log_remove_shard env get_oid leave_zero i ec w)))
   <= (if (i =? 0)%Z then 1 else 0))%nat.
Proof.
  unfold log_remove_shard, bind, fifo_get_meta, rados_clear_truncate,
    rados_remove, lderr, ret.
  destruct (env_fifo_get_meta env (get_oid i) w) as [[r info] w1].
  destruct (r =? - ENOENT).
  { proj_simpl. split; [repeat constructor | destruct (i =? 0); simpl; lia]. }
  assert (Hparts :
            forall run : error_code * W * list event,
              run = (if (r =? 0) && (-1 <? head_part_num info)
                     then remove_parts env info
                            (Z.to_nat (head_part_num info
                                       - tail_part_num info + 1))
                            (tail_part_num info) ec
                     else fun w0 => (ec, w0, [])) w1 ->
              Forall (log_remove_call get_oid leave_zero) (trace run) /\
              filter is_clear (trace run) = []).
  { intros run ->. destruct ((r =? 0) && (-1 <? head_part_num info)).
    - apply remove_parts_calls.
    - split; [constructor | reflexivity]. }
  specialize (Hparts _ eq_refl).
  match type of Hparts with
  | Forall _ (trace ?run) /\ _ => destruct run as [[ec1 w2] tp]
  end.
  destruct Hparts as [Hall Hcl]. proj_simpl.
  destruct ((r <? 0) && negb (r =? - ENODATA)); proj_simpl;
    destruct (i =? 0) eqn:Ei; destruct leave_zero; cbn [andb];
    try (apply Z.eqb_eq in Ei; subst i);
    match goal with
    | |- context [env_clear_truncate env ?o ?w] =>
        destruct (env_clear_truncate env o w) as [r2 w3]
    | |- context [env_remove env ?o ?w] =>
        destruct (env_remove env o w) as [r2 w3]
    end;
    destruct ((r2 <? 0) && negb (r2 =? - ENOENT)); proj_simpl;
    idtac.
  all: split.
  all: try (cbn [filter is_clear]; rewrite filter_app, Hcl; simpl; lia).
  all: constructor; [exact I|].
  all: apply Forall_app; split; [exact Hall|].
  all: repeat constructor.
Qed.

Lemma log_remove_loop_calls (get_oid : Z -> string) leave_zero n :
  forall i ec w,
    0 <= i ->
    Forall (log_remove_call get_oid leave_zero)
      (trace (log_remove_loop env get_oid leave_zero n i ec w)) /\
    (length (filter is_clear
               (trace (log_remove_loop env get_oid leave_zero n i ec w)))
     <= (if (i =? 0)%Z then 1 else 0))%nat.
Proof.
  induction n as [|n IH]; intros i ec w Hi.
  - split; [constructor | simpl; lia].
  - cbn [log_remove_loop]. unfold bind.
    destruct (log_remove_shard_calls get_oid leave_zero i ec w) as [H1 C1].
    destruct (log_remove_shard env get_oid leave_zero i ec w)
      as [[ec1 w1] t1].
    destruct (IH (i + 1) ec1 w1 ltac:(lia)) as [H2 C2].
    destruct (log_remove_loop env get_oid leave_zero n (i + 1) ec1 w1)
      as [[ec2 w2] t2].
    proj_simpl.
    replace (i + 1 =? 0) with false in C2 by (symmetry; apply Z.eqb_neq; lia).
    split; [apply Forall_app; split; assumption|].
    rewrite filter_app, length_app. lia.
Qed.

(** X4: [log_remove] does nothing but probe for FIFO metadata, remove
    objects and log; the one exception is the clearing and truncation of
    shard 0's object, which happens under [leave_zero] only and at most
    once.  It never clears another shard, never writes metadata, never
    notifies and calls no handler. *)
Theorem log_remove_calls :
  forall shards (get_oid : Z -> string) leave_zero w,
    let t := trace (log_remove env shards get_oid leave_zero w) in
    Forall (log_remove_call get_oid leave_zero) t /\
    (length (filter is_clear t) <= 1)%nat.
Proof.
  intros shards get_oid leave_zero w t. subst t. unfold log_remove.
  destruct (log_remove_loop_calls get_oid leave_zero (Z.to_nat shards) 0 0 w
              ltac:(lia)) as [H C].
  split; [exact H | exact C].
Qed.

(** ** update and write *)

(** X5: [update] keeps the map usable and only moves forward.  From a
    map with a non-empty entry, whatever the store and the handlers
    answer, [update] returns (it does not abort), the map it leaves has a
    non-empty entry, and neither the lowest non-empty key nor the maximum
    key has gone down. *)
Theorem update_keeps_head_and_is_monotone :
  forall oid s w cl cm,
    lowest_nonempty_key (entries_ s) = Some cl ->
    max_key (entries_ s) = Some cm ->
    exists ec s' cl' cm',
      value (update env oid s w) = (Ret ec, s') /\
      lowest_nonempty_key (entries_ s') = Some cl' /\
      max_key (entries_ s') = Some cm' /\
      cl <= cl' /\ cm <= cm'.
Proof.
  intros oid s w cl cm Hcl Hcm.
  assert (Hkeep : forall ec,
             exists ec' s' cl' cm',
               (Ret ec, s) = (Ret ec', s') /\
               lowest_nonempty_key (entries_ s') = Some cl' /\
               max_key (entries_ s') = Some cm' /\ cl <= cl' /\ cm <= cm').
  { intros ec. exists ec, s, cl, cm. repeat split; auto; lia. }
  unfold update, read, bind, rados_read, lderr, ret.
  destruct (env_read env oid (version s) w) as [[[r v2] body] w1].
  destruct (r <? 0).
  { destruct (r =? - ENOENT); proj_simpl; apply Hkeep. }
  destruct body as [es|ec]; [|proj_simpl; apply Hkeep].
  destruct (obj_version_eqb v2 (version s)); [proj_simpl; apply Hkeep|].
  destruct es as [|e0 es']; [proj_simpl; apply Hkeep|].
  cbv beta match. remember (e0 :: es') as es eqn:Hes.
  assert (Hcl' := Hcl). assert (Hcm' := Hcm).
  unfold lowest_nonempty_key in Hcl'. unfold max_key in Hcm'.
  destruct (deref (entries_ s) (lowest_nomempty (entries_ s)))
    as [[cf cg]|]; [|discriminate].
  destruct (back (entries_ s)) as [[cb cgb]|]; [|discriminate].
  cbn in Hcl', Hcm'. inversion Hcl'; inversion Hcm'; subst cf cb.
  destruct (deref es (lowest_nomempty es)) as [[nf ng]|] eqn:Hn;
    [|proj_simpl; apply Hkeep].
  destruct (nf <? cl) eqn:Htail; [proj_simpl; apply Hkeep|].
  destruct (back es) as [[nb ngb]|] eqn:Hb; [|proj_simpl].
  2:{ rewrite Hes in Hb. destruct (back_some e0 es') as [b Hb'].
      rewrite Hb' in Hb. discriminate. }
  destruct (nb <? cm) eqn:Hhead; [proj_simpl; apply Hkeep|].
  apply Z.ltb_ge in Htail, Hhead.
  assert (Hnew : forall ec,
             exists ec' s' cl' cm',
               (Ret ec, mk_mgr es v2 (watchcookie s)) = (Ret ec', s') /\
               lowest_nonempty_key (entries_ s') = Some cl' /\
               max_key (entries_ s') = Some cm' /\ cl <= cl' /\ cm <= cm').
  { intros ec. exists ec, (mk_mgr es v2 (watchcookie s)), nf, nb.
    cbn [entries_]. unfold lowest_nonempty_key, max_key.
    rewrite Hn, Hb. repeat split; auto. }
  unfold handle_empty_to, handle_new_gens.
  match goal with
  | |- context [match ?x with Some _ => _ | None => _ end] =>
      generalize x; intros he
  end.
  match goal with
  | |- context [match ?x with [] => _ | _ :: _ => _ end] =>
      generalize x; intros ne
  end.
  destruct he as [h|]; destruct ne as [|n0 ntl]; run_all; proj_simpl;
    apply Hnew.
Qed.

(** X6: [update] installs what it read before it calls the handlers, so
    the new map and version stay installed whatever the handlers return;
    an error of [handle_empty_to] is returned and [handle_new_gens] is
    then not called; the result of [handle_new_gens], when it is called,
    is what [update] returns. *)
Theorem update_installs_before_handlers :
  forall oid s w r v2 es w1,
    env_read env oid (version s) w = (r, v2, Expected es, w1) ->
    0 <= r ->
    obj_version_eqb v2 (version s) = false ->
    lowest_nonempty_key (entries_ s) <> None ->
    inconsistent es (entries_ s) = false ->
    let run := update env oid s w in
    snd (value run) = mk_mgr es v2 (watchcookie s) /\
    (forall h ec1,
        In (EvHandleEmptyTo h ec1) (trace run) -> ec1 <> 0 ->
        fst (value run) = Ret ec1 /\
        forall e ec2, ~ In (EvHandleNewGens e ec2) (trace run)) /\
    (forall e ec2,
        In (EvHandleNewGens e ec2) (trace run) -> fst (value run) = Ret ec2).
Proof.
  intros oid s w r v2 es w1 Hread Hr Hver Hcur Hinc run. subst run.
  assert (Hr' : (r <? 0) = false) by (apply Z.ltb_ge; lia).
  unfold update, read, bind, rados_read. rewrite Hread, Hr'.
  cbn [ret]. rewrite Hver.
  destruct es as [|e0 es']; [discriminate|].
  cbv beta match. unfold inconsistent in Hinc.
  remember (e0 :: es') as es eqn:Hes.
  unfold lowest_nonempty_key, max_key in Hcur, Hinc.
  destruct (deref (entries_ s) (lowest_nomempty (entries_ s)))
    as [[cf cg]|] eqn:Hdc; [clear Hcur | contradiction Hcur; reflexivity].
  destruct (deref es (lowest_nomempty es)) as [[nf ng]|]; [|discriminate].
  cbn [option_map fst below] in Hinc. apply orb_false_iff in Hinc.
  destruct Hinc as [Htail Hhead]. rewrite Htail.
  destruct (back es) as [[nb ngb]|] eqn:Hb.
  2:{ rewrite Hes in Hb. destruct (back_some e0 es') as [b Hb'].
      rewrite Hb' in Hb. discriminate. }
  destruct (deref_back _ _ _ Hdc) as [[cb cgb] Hbc]. rewrite Hbc in *.
  cbn [option_map fst below] in Hhead. rewrite Hhead.
  unfold handle_empty_to, handle_new_gens, ret.
  match goal with
  | |- context [match ?x with Some _ => _ | None => _ end] =>
      generalize x; intros he
  end.
  match goal with
  | |- context [match ?x with [] => _ | _ :: _ => _ end] =>
      generalize x; intros ne
  end.
  destruct he as [h|]; destruct ne as [|n0 ntl];
    repeat first
      [ destruct_env
      | match goal with
        | |- context [failed ?a] =>
            let E := fresh "E" in
            destruct (failed a) eqn:E;
            [apply failed_nonzero in E | apply failed_false in E; subst a]
        end ];
    proj_simpl;
    (split; [reflexivity|]);
    (split;
     [ intros h' ec1 Hin Hne; split_in Hin;
       inversion Hin; subst;
       try contradiction;
       (split; [reflexivity|]);
       intros e' ec2 Hin2; split_in Hin2
     | intros e' ec2 Hin; split_in Hin;
       inversion Hin; subst; reflexivity ]).
Qed.

(** X7: [write] reports success only when the CAS write did not fail: a
    canceled write never comes back as success, whatever the refresh that
    follows it does.  On success the map passed in and the version, one
    up, are installed exactly when the write returned 0; a positive
    result is reported as success with the state left as it was. *)
Theorem write_success_means_written :
  forall oid e s w s',
    value (write env oid e s w) = (Ret 0, s') ->
    exists r,
      write_results (trace (write env oid e s w)) = [r] /\
      0 <= r /\
      s' = (if r =? 0
            then mk_mgr e (version_inc (version s)) (watchcookie s)
            else s).
Proof.
  intros oid e s w s'.
  unfold write, bind, rados_write.
  destruct (env_write env oid (version s) e w) as [r w1].
  destruct (r =? 0) eqn:E0.
  { apply Z.eqb_eq in E0. subst r. unfold ret. proj_simpl.
    intros H. inversion H; subst. exists 0.
    split; [reflexivity | split; [lia | reflexivity]]. }
  destruct ((r <? 0) && negb (r =? - ECANCELED)) eqn:E1.
  { unfold bind, lderr, ret. proj_simpl. intros H. inversion H.
    apply andb_prop in E1. destruct E1 as [E1 _]. apply Z.ltb_lt in E1.
    lia. }
  destruct (r =? - ECANCELED) eqn:E2.
  - unfold bind, ret.
    destruct (update env oid s w1) as [[[oc s1] w2] t2].
    destruct oc as [ec|]; [|proj_simpl; discriminate].
    destruct (failed ec) eqn:Ef; proj_simpl; intros H; inversion H; subst.
    discriminate Ef.
  - unfold ret. proj_simpl. intros H. inversion H; subst.
    exists r. split; [reflexivity|]. split; [|rewrite E0; reflexivity].
    destruct (Z.ltb_spec r 0) as [Hlt|Hge]; [|exact Hge].
    cbn [andb negb] in E1. discriminate E1.
Qed.

(** ** setup *)




(** X11: [setup] after a create that did not succeed ("already exists",
    or any other result but 0).  The metadata object is read again, under
    the version just made up; the map and version read replace the
    manager's own generation 0; and when the first entry read is not
    generation 0, the shards of generation 0 are removed first, shard 0
    being cleared and kept, and an error of that removal is what [setup]
    returns. *)
Theorem setup_lost_race_takes_stored_state :
  forall oid get_oid shards def s w r0 v0 b0 w1 ty w2 t2 tg w3 r w4
         r2 v' k l tl w5,
    env_read env oid (version s) w = (r0, v0, b0, w1) ->
    r0 = - ENOENT ->
    log_backing_type env def shards (get_oid 0) w1 = (Expected ty, w2, t2) ->
    env_rand_alpha env 24 w2 = (tg, w3) ->
    env_create env oid (mk_version 1 tg)
      (emplace 0 (mk_gen 0 ty false) (entries_ s)) w3 = (r, w4) ->
    r <> 0 ->
    env_read env oid (mk_version 1 tg) w4
    = (r2, v', Expected ((k, l) :: tl), w5) ->
    0 <= r2 ->
    let es0 := emplace 0 (mk_gen 0 ty false) (entries_ s) in
    let s1 := mk_mgr es0 (mk_version 1 tg) (watchcookie s) in
    let s2 := mk_mgr ((k, l) :: tl) v' (watchcookie s) in
    let removal :=
      if negb (gen_id l =? 0)
      then log_remove env shards (get_oid 0) true w5
      else (0, w5, []) in
    setup_load env oid get_oid shards def s w
    = ((if failed (value removal)
        then (Unexpected (value removal), s1)
        else (Expected s2, s2)),
       world removal,
       [EvRead oid (version s) r0 v0 b0; EvLog "not found"] ++ t2
       ++ [EvRandAlpha 24 tg; EvCreate oid (mk_version 1 tg) es0 r]
       ++ (if (r <? 0) && negb (r =? - EEXIST)
           then [EvLog "failed writing"] else [])
       ++ [EvRead oid (mk_version 1 tg) r2 v' (Expected ((k, l) :: tl))]
       ++ trace removal).
Proof.
  intros oid get_oid shards def s w r0 v0 b0 w1 ty w2 t2 tg w3 r w4
    r2 v' k l tl w5 Hread -> Hlbt Hrand Hcreate Hr Hreread Hr2
    es0 s1 s2 removal.
  subst removal s2 s1 es0.
  unfold setup_load, read.
  unfold rados_read, append_rand_alpha, rados_create, bind, lderr, ret.
  rewrite Hread. decide_tests. rewrite Hlbt. decide_tests.
  rewrite Hrand. decide_tests. rewrite Hcreate.
  replace (negb (r =? 0)) with true
    by (symmetry; apply negb_true_iff, Z.eqb_neq; exact Hr).
  cbn [version].
  replace (r2 <? 0) with false in * by (symmetry; apply Z.ltb_ge; lia).
  destruct ((r <? 0) && negb (r =? - EEXIST)); decide_tests;
    rewrite Hreread;
    replace (r2 <? 0) with false by (symmetry; apply Z.ltb_ge; lia);
    decide_tests;
    (destruct (negb (gen_id l =? 0));
     [ destruct (log_remove env shards (get_oid 0) true w5) as [[ec w6] t6]
     | change (failed 0) with false ]);
    proj_simpl; decide_tests;
    try (destruct (failed ec));
    cbn [app]; rewrite <- ?app_assoc; cbn [app]; rewrite ?app_nil_r;
    reflexivity.
Qed.

(** ** new_backing *)

Lemma emplace_above k v (es : entries_t) :
  (forall e, In e es -> fst e < k) -> emplace k v es = es ++ [(k, v)].
Proof.
  induction es as [|[k1 g1] tl IH]; intros Hall; [reflexivity|].
  cbn [emplace app].
  assert (H1 : k1 < k) by (apply (Hall (k1, g1)); left; reflexivity).
  replace (k <? k1) with false by (symmetry; apply Z.ltb_ge; lia).
  replace (k =? k1) with false by (symmetry; apply Z.eqb_neq; lia).
  rewrite IH; [reflexivity|]. intros e He. apply Hall. right. exact He.
Qed.

Lemma keys_above_snoc lo (es : entries_t) k g k' v :
  keys_above lo es = true -> back es = Some (k, g) -> k < k' ->
  keys_above lo (es ++ [(k', v)]) = true.
Proof.
  revert lo. induction es as [|[k1 g1] tl IH]; intros lo Hs Hb Hk.
  - discriminate.
  - cbn [keys_above app] in *. apply andb_prop in Hs. destruct Hs as [H1 H2].
    rewrite H1. cbn [andb]. rewrite back_cons in Hb.
    destruct tl as [|e2 tl2].
    + inversion Hb; subst. cbn [app keys_above].
      replace (k <? k') with true by (symmetry; apply Z.ltb_lt; lia).
      reflexivity.
    + apply (IH k1 H2 Hb Hk).
Qed.

Lemma flat_map_ok_snoc (es : entries_t) k g k' v :
  flat_map_ok es = true -> back es = Some (k, g) -> k < k' ->
  flat_map_ok (es ++ [(k', v)]) = true.
Proof.
  destruct es as [|[k1 g1] tl]; [discriminate|].
  intros Hs Hb Hk. cbn [flat_map_ok app] in *. rewrite back_cons in Hb.
  destruct tl as [|e2 tl2].
  - inversion Hb; subst. cbn [app keys_above].
    replace (k <? k') with true by (symmetry; apply Z.ltb_lt; lia).
    reflexivity.
  - apply (keys_above_snoc k1 _ k g k' v Hs Hb Hk).
Qed.

Lemma dense_snoc (es : entries_t) k g v :
  dense es = true -> back es = Some (k, g) ->
  dense (es ++ [(k + 1, v)]) = true.
Proof.
  induction es as [|[k1 g1] tl IH]; intros Hd Hb; [discriminate|].
  rewrite back_cons in Hb. destruct tl as [|[k2 g2] tl2].
  - inversion Hb; subst. cbn [app dense]. rewrite Z.eqb_refl. reflexivity.
  - cbn [dense] in Hd. apply andb_prop in Hd. destruct Hd as [H1 H2].
    change (((k1, g1) :: (k2, g2) :: tl2) ++ [(k + 1, v)])
      with ((k1, g1) :: ((k2, g2) :: tl2) ++ [(k + 1, v)]).
    specialize (IH H2 Hb). cbn [app] in IH |- *. cbn [dense].
    rewrite H1. cbn [andb]. exact IH.
Qed.

Lemma back_snoc (es : entries_t) e : back (es ++ [e]) = Some e.
Proof.
  induction es as [|e0 tl IH]; [reflexivity|].
  cbn [app]. rewrite back_cons. destruct tl; [reflexivity | exact IH].
Qed.

(** The calls of [write] start with the CAS write. *)
Lemma write_trace_head oid e s w :
  exists r rest,
    trace (write env oid e s w) = EvWrite oid (version s) e r :: rest.
Proof.
  unfold write, bind, rados_write.
  destruct (env_write env oid (version s) e w) as [r w1].
  exists r.
  match goal with
  | |- context [match ?X with (_, _) => _ end] => destruct X as [[b w2] t2]
  end.
  proj_simpl. eexists. reflexivity.
Qed.

Lemma trace_bind {A B : Type} (m : IO W A) (k : A -> IO W B) w :
  trace (bind m k w)
  = trace (m w) ++ trace (k (value (m w)) (world (m w))).
Proof.
  unfold bind. destruct (m w) as [[a w1] t1]. proj_simpl.
  destruct (k a w1) as [[b w2] t2]. reflexivity.
Qed.

(** A round of the loop of [new_backing] that does not return at once
    starts with the CAS write of the map with the new entry. *)
Lemma new_backing_loop_first_write oid fuel ty tries new_entries s w k g :
  back (entries_ s) = Some (k, g) ->
  log_type.eqb (type g) ty = false ->
  exists r rest,
    trace (new_backing_loop env oid (S fuel) ty tries new_entries s w)
    = EvWrite oid (version s)
        (emplace (u64_succ k) (mk_gen (u64_succ k) ty false) (entries_ s)) r
        :: rest.
Proof.
  intros Hback Hty. cbn [new_backing_loop]. rewrite Hback, Hty.
  rewrite trace_bind.
  destruct (write_trace_head oid
              (emplace (u64_succ k) (mk_gen (u64_succ k) ty false)
                 (entries_ s)) s w) as (r & rest & Hw).
  rewrite Hw. cbn [app]. eexists. eexists. reflexivity.
Qed.

(** X14: what [new_backing] writes.  When the head has another type,
    the map of the first write is the current map with one entry added at
    its end: key one above the maximum key, the requested type, not
    empty.  So the keys stay ascending and stay without gaps, and the new
    head is not empty. *)
Theorem new_backing_appends_next_generation :
  forall oid ty s w s1 w1 t1 k g,
    update env oid s w = ((Ret 0, s1), w1, t1) ->
    back (entries_ s1) = Some (k, g) ->
    log_type.eqb (type g) ty = false ->
    flat_map_ok (entries_ s1) = true ->
    0 <= k -> k + 1 < uint64_max ->
    let es := entries_ s1 ++ [(k + 1, mk_gen (k + 1) ty false)] in
    (exists r rest,
        trace (new_backing env oid ty s w)
        = t1 ++ EvWrite oid (version s1) es r :: rest) /\
    flat_map_ok es = true /\
    (dense (entries_ s1) = true -> dense es = true) /\
    back es = Some (k + 1, mk_gen (k + 1) ty false).
Proof.
  intros oid ty s w s1 w1 t1 k g Hupd Hback Hty Hok Hk0 Hk1 es.
  assert (Hsucc : u64_succ k = k + 1)
    by (unfold u64_succ; apply Z.mod_small; lia).
  assert (Hem : emplace (k + 1) (mk_gen (k + 1) ty false) (entries_ s1) = es).
  { apply emplace_above. intros e He.
    pose proof (flat_map_back_max _ k g Hok Hback e He). lia. }
  split; [|split; [|split]].
  - unfold new_backing. rewrite trace_bind, Hupd.
    change (trace (Ret 0, s1, w1, t1)) with t1.
    unfold value, world. cbn [fst snd].
    change (failed 0) with false. cbv beta iota.
    rewrite trace_bind.
    change (Z.to_nat max_tries) with 10%nat.
    destruct (new_backing_loop_first_write oid 9 ty 0 [] s1 w1 k g Hback Hty)
      as (r & rest & Hw).
    rewrite Hw, Hsucc, Hem. cbn [app].
    exists r. eexists. reflexivity.
  - apply (flat_map_ok_snoc _ k g); auto. lia.
  - intros Hd. apply (dense_snoc _ k g); auto.
  - apply back_snoc.
Qed.

(** ** empty_to *)

Lemma keys_above_In lo (es : entries_t) :
  keys_above lo es = true -> forall e, In e es -> lo < fst e.
Proof.
  revert lo. induction es as [|[k g] tl IH]; intros lo H e He;
    [contradiction|].
  cbn [keys_above] in H. apply andb_prop in H. destruct H as [Hlo Htl].
  apply Z.ltb_lt in Hlo. destruct He as [<-|He]; [exact Hlo|].
  specialize (IH k Htl e He). lia.
Qed.

Lemma emptied_to_above gen lo (es : entries_t) :
  keys_above lo es = true -> gen <= lo -> emptied_to gen es = es.
Proof.
  intros H Hlo. unfold emptied_to.
  rewrite <- (map_id es) at 2. apply map_ext_in.
  intros e He. pose proof (keys_above_In lo es H e He).
  replace (fst e <=? gen) with false by (symmetry; apply Z.leb_gt; lia).
  reflexivity.
Qed.

(** The [for] of [empty_to] up to [upper_bound] marks all the entries of
    a key up to [gen_id], and no other. *)
Lemma mark_empty_upper_bound gen (es : entries_t) :
  forall lo nt0,
    keys_above lo es = true ->
    fst (mark_empty (upper_bound es gen) es nt0) = emptied_to gen es.
Proof.
  induction es as [|[k g] tl IH]; intros lo nt0 H; [reflexivity|].
  cbn [keys_above] in H. apply andb_prop in H. destruct H as [_ Htl].
  cbn [upper_bound]. destruct (k <=? gen) eqn:Hk.
  - cbn [mark_empty]. specialize (IH k k Htl).
    destruct (mark_empty (upper_bound tl gen) tl k) as [tl' nt].
    cbn [fst] in *. unfold emptied_to. cbn [map fst]. rewrite Hk.
    unfold emptied_to in IH. rewrite <- IH. reflexivity.
  - cbn [mark_empty fst]. unfold emptied_to. cbn [map fst]. rewrite Hk.
    f_equal. apply Z.leb_gt in Hk. symmetry.
    apply (emptied_to_above gen k tl Htl). lia.
Qed.

(** And [newtail] is then the greatest of these keys, when there is
    one. *)
Lemma mark_empty_newtail gen (es : entries_t) :
  forall lo nt0,
    keys_above lo es = true ->
    upper_bound es gen <> O ->
    greatest_key_to gen es (snd (mark_empty (upper_bound es gen) es nt0)).
Proof.
  induction es as [|[k g] tl IH]; intros lo nt0 H Hub;
    [contradiction Hub; reflexivity|].
  cbn [keys_above] in H. apply andb_prop in H. destruct H as [_ Htl].
  cbn [upper_bound] in *. destruct (k <=? gen) eqn:Hk;
    [|contradiction Hub; reflexivity].
  apply Z.leb_le in Hk. cbn [mark_empty].
  destruct (Nat.eq_dec (upper_bound tl gen) O) as [Hz|Hnz].
  - rewrite Hz. cbn [mark_empty snd]. unfold greatest_key_to.
    cbn [snd map fst]. split; [left; reflexivity|].
    split; [exact Hk|].
    intros k' [<-|Hin] Hle; [lia|].
    destruct tl as [|[k1 g1] tl1]; [contradiction|].
    cbn [upper_bound] in Hz.
    destruct (k1 <=? gen) eqn:Hk1; [discriminate|].
    apply Z.leb_gt in Hk1.
    apply in_map_iff in Hin. destruct Hin as (e & <- & He).
    pose proof (keys_above_In k _ Htl e He).
    cbn [keys_above] in Htl. apply andb_prop in Htl.
    destruct Htl as [_ Htl1].
    destruct He as [<-|He]; [cbn [fst] in Hle; lia|].
    pose proof (keys_above_In k1 tl1 Htl1 e He). lia.
  - specialize (IH k k Htl Hnz).
    destruct (mark_empty (upper_bound tl gen) tl k) as [tl' nt].
    unfold greatest_key_to in *.
    cbn [snd map fst] in *. destruct IH as (Hin & Hle & Hmax).
    split; [right; exact Hin|]. split; [exact Hle|].
    intros k' [<-|Hin'] Hle'.
    + apply in_map_iff in Hin. destruct Hin as (e & <- & He).
      pose proof (keys_above_In k tl Htl e He). lia.
    + apply Hmax; assumption.
Qed.

Lemma flat_map_ok_keys_above (es : entries_t) :
  flat_map_ok es = true -> exists lo, keys_above lo es = true.
Proof.
  destruct es as [|[k g] tl]; intros H.
  - exists 0. reflexivity.
  - exists (k - 1). cbn [keys_above]. cbn [flat_map_ok] in H. rewrite H.
    replace (k - 1 <? k) with true by (symmetry; apply Z.ltb_lt; lia).
    reflexivity.
Qed.

Lemma back_map (f : Z * logback_generation -> Z * logback_generation)
    (es : entries_t) :
  back (map f es) = option_map f (back es).
Proof.
  destruct es as [|e0 tl]; [reflexivity|].
  change (back (map f (e0 :: tl)))
    with (nth_error (map f (e0 :: tl)) (length (map f (e0 :: tl)) - 1)).
  rewrite length_map, nth_error_map. reflexivity.
Qed.

Lemma back_map_above gen (es : entries_t) k g :
  back es = Some (k, g) -> gen < k -> back (emptied_to gen es) = Some (k, g).
Proof.
  intros Hb Hk. unfold emptied_to. rewrite back_map, Hb.
  cbn [option_map fst].
  replace (k <=? gen) with false by (symmetry; apply Z.leb_gt; lia).
  reflexivity.
Qed.

(** The first round of the loop of [empty_to], when there is something to
    mark and the write succeeds. *)
Lemma empty_to_loop_first_write oid fuel gen s w k g w2 :
  flat_map_ok (entries_ s) = true ->
  back (entries_ s) = Some (k, g) ->
  gen < k ->
  upper_bound (entries_ s) gen <> O ->
  env_write env oid (version s) (emptied_to gen (entries_ s)) w = (0, w2) ->
  exists nt,
    greatest_key_to gen (entries_ s) nt /\
    empty_to_loop env oid (S fuel) gen 0 0 s w
    = ((Left 0 1 nt,
        mk_mgr (emptied_to gen (entries_ s)) (version_inc (version s))
          (watchcookie s)), w2,
       [EvWrite oid (version s) (emptied_to gen (entries_ s)) 0]).
Proof.
  intros Hok Hback Hk Hub Hwrite.
  destruct (flat_map_ok_keys_above _ Hok) as [lo Hlo].
  pose proof (mark_empty_upper_bound gen (entries_ s) lo 0 Hlo) as Hes.
  pose proof (mark_empty_newtail gen (entries_ s) lo 0 Hlo Hub) as Hnt.
  cbn [empty_to_loop]. rewrite Hback.
  replace (k <=? gen) with false by (symmetry; apply Z.leb_gt; lia).
  replace (Nat.eqb (upper_bound (entries_ s) gen) O) with false
    by (symmetry; apply Nat.eqb_neq; exact Hub).
  destruct (mark_empty (upper_bound (entries_ s) gen) (entries_ s) 0)
    as [es nt].
  cbn [fst snd] in Hes, Hnt. subst es.
  exists nt. split; [exact Hnt|].
  unfold write, rados_write, bind. rewrite Hwrite.
  cbn [Z.eqb]. unfold ret. cbn [app].
  change (is_canceled 0) with false. cbn [andb]. reflexivity.
Qed.

(** X12: what [empty_to] does when it has something to mark.  With a map
    in key order whose head is above [gen_id] and with a key up to
    [gen_id], the map written is the current one with exactly the entries
    of a key up to [gen_id] marked empty, so the head is written as it
    was; when the write succeeds and the notify does not fail,
    [handle_empty_to] is called with the greatest key up to [gen_id],
    what it returns is dropped, and the written map is the one kept. *)
Theorem empty_to_marks_up_to_gen_id :
  forall oid gen_id s w s1 w1 t1 k g w2 r w3,
    update env oid s w = ((Ret 0, s1), w1, t1) ->
    flat_map_ok (entries_ s1) = true ->
    back (entries_ s1) = Some (k, g) ->
    gen_id < k ->
    upper_bound (entries_ s1) gen_id <> O ->
    let es := emptied_to gen_id (entries_ s1) in
    env_write env oid (version s1) es w1 = (0, w2) ->
    env_notify env oid 10000 w2 = (r, w3) ->
    0 <= r ->
    back es = Some (k, g) /\
    exists nt,
      greatest_key_to gen_id (entries_ s1) nt /\
      empty_to env oid gen_id s w
      = ((Ret 0, mk_mgr es (version_inc (version s1)) (watchcookie s1)),
         snd (env_handle_empty_to env nt w3),
         t1 ++ [EvWrite oid (version s1) es 0;
                EvNotify oid 10000 r;
                EvHandleEmptyTo nt (fst (env_handle_empty_to env nt w3))]).
Proof.
  intros oid gen_id s w s1 w1 t1 k g w2 r w3 Hupd Hok Hback Hk Hub es
    Hwrite Hnotify Hr.
  split; [apply back_map_above; assumption|].
  destruct (empty_to_loop_first_write oid 9 gen_id s1 w1 k g w2
              Hok Hback Hk Hub Hwrite) as (nt & Hnt & Hloop).
  exists nt. split; [exact Hnt|].
  unfold empty_to, bind. rewrite Hupd.
  change (failed 0) with false. cbv beta iota.
  change (Z.to_nat max_tries) with 10%nat. rewrite Hloop.
  change (max_tries <=? 1) with false. change (failed 0) with false.
  cbv beta iota.
  unfold rgw_rados_notify, handle_empty_to, bind, ret. rewrite Hnotify.
  replace (r <? 0) with false by (symmetry; apply Z.ltb_ge; lia).
  destruct (env_handle_empty_to env nt w3) as [ec w4].
  cbn [fst snd app]. reflexivity.
Qed.

(** ** remove_empty *)










End Properties.

(** * Properties of cconf *)

Lemma positional_param a st : param (positional a st) = param st + 1.
Proof.
  unfold positional.
  destruct (param st =? 0); [reflexivity|].
  destruct (param st =? 1); [reflexivity|].
  destruct (param st =? 2); reflexivity.
Qed.




(** A prefix of the command line that the loop gets through leaves the
    loop in the state it continues from. *)
Lemma parse_args_app n :
  forall pre post st st',
    (length pre <= n)%nat ->
    parse_args pre st = Some st' ->
    parse_args (pre ++ post) st = parse_args post st'.
Proof.
  induction n as [|n IH]; intros pre post st st' Hlen Hp.
  - destruct pre; [|cbn [length] in Hlen; lia].
    inversion Hp; subst. reflexivity.
  - destruct pre as [|a rest]; [inversion Hp; subst; reflexivity|].
    cbn [length] in Hlen. cbn [parse_args app] in *.
    destruct (a =? "-c")%string.
    { destruct rest as [|v rest']; [discriminate|].
      cbn [length app] in *. apply IH; [lia | exact Hp]. }
    destruct ((a =? "-l")%string || (a =? "--list_sections")%string).
    { destruct rest as [|v rest']; [discriminate|].
      cbn [length app] in *. apply IH; [lia | exact Hp]. }
    destruct (a =? "-s")%string.
    { destruct rest as [|v rest']; [discriminate|].
      cbn [length app] in *. apply IH; [lia | exact Hp]. }
    apply IH; [lia | exact Hp].
Qed.

(** The word after [-s] is taken as a section, whatever it is. *)
Lemma parse_args_dash_s ss :
  forall post st,
    ss <> [] ->
    parse_args (dash_s ss ++ post) st
    = parse_args post
        (mk_locals (fname st) (list_sections st) (sections st ++ ss)
           (key st) (defval st)
           (if param st =? 0 then param st + 1 else param st)).
Proof.
  induction ss as [|s tl IH]; intros post st Hne; [contradiction Hne; reflexivity|].
  unfold dash_s. cbn [flat_map app]. fold (dash_s tl).
  cbn [parse_args String.eqb Ascii.eqb Bool.eqb orb].
  destruct tl as [|s' tl'].
  - cbn [dash_s flat_map app]. reflexivity.
  - rewrite IH by discriminate. cbn [fname list_sections sections key defval param].
    rewrite <- app_assoc. cbn [app].
    destruct (param st =? 0) eqn:E0.
    + apply Z.eqb_eq in E0. rewrite E0. reflexivity.
    + rewrite E0. reflexivity.
Qed.

Lemma read_sections_first cf pre s post k v :
  (forall p, In p pre -> conf_read cf p k = None) ->
  conf_read cf s k = Some v ->
  read_sections cf (pre ++ s :: post) k = Some v.
Proof.
  intros Hpre Hs. induction pre as [|p pre IH]; cbn [app read_sections].
  - rewrite Hs. reflexivity.
  - rewrite (Hpre p (or_introl eq_refl)).
    apply IH. intros q Hq. apply Hpre. right. exact Hq.
Qed.

Lemma read_sections_none cf ss k :
  (forall p, In p ss -> conf_read cf p k = None) ->
  read_sections cf ss k = None.
Proof.
  intros H. induction ss as [|p ss IH]; [reflexivity|].
  cbn [read_sections]. rewrite (H p (or_introl eq_refl)).
  apply IH. intros q Hq. apply H. right. exact Hq.
Qed.

Lemma length_dash_s ss : length (dash_s ss) = (2 * length ss)%nat.
Proof.
  induction ss as [|s tl IH]; [reflexivity|].
  unfold dash_s in *. cbn [flat_map app length]. rewrite IH. lia.
Qed.

(** The run of [main] on [-s s1 -s s2 ... key [default]]. *)
Lemma main_dash_s conf load ss k dflt :
  ss <> [] ->
  is_option k = false ->
  match dflt with Some d => is_option d = false | None => True end ->
  main conf load
    (dash_s ss ++ k :: match dflt with Some d => [d] | None => [] end)
  = match read_sections (load conf) ss (Some k) with
    | Some val => Exit 0 [val] []
    | None =>
        match dflt with
        | Some d => Exit 0 [d] []
        | None => Exit 1 [] []
        end
    end.
Proof.
  intros Hne Hk Hd. unfold main.
  assert (Hlen : (length (dash_s ss ++ k :: match dflt with
                                            | Some d => [d]
                                            | None => []
                                            end) <? 2)%nat = false).
  { apply Nat.ltb_ge. rewrite length_app, length_dash_s. cbn [length].
    destruct ss; [contradiction Hne; reflexivity|]. cbn [length]. lia. }
  rewrite Hlen, parse_args_dash_s by exact Hne.
  unfold initial. cbn [fname list_sections sections key defval param Z.eqb Z.add app].
  unfold is_option in Hk.
  apply orb_false_elim in Hk. destruct Hk as [Hk Hk4].
  apply orb_false_elim in Hk. destruct Hk as [Hk Hk3].
  apply orb_false_elim in Hk. destruct Hk as [Hk1 Hk2].
  cbn [parse_args]. rewrite Hk1, Hk2, Hk3, Hk4. cbn [orb].
  unfold positional at 1.
  cbn [fname list_sections sections key defval param Z.eqb Z.add Pos.eqb].
  destruct dflt as [d|].
  - unfold is_option in Hd.
    apply orb_false_elim in Hd. destruct Hd as [Hd Hd4].
    apply orb_false_elim in Hd. destruct Hd as [Hd Hd3].
    apply orb_false_elim in Hd. destruct Hd as [Hd1 Hd2].
    cbn [parse_args]. rewrite Hd1, Hd2, Hd3, Hd4. cbn [orb].
    unfold positional.
    cbn [fname list_sections sections key defval param Z.eqb Z.add Pos.eqb
         Pos.add Pos.succ Z.ltb Z.compare Pos.compare Pos.compare_cont
         andb orb].
    reflexivity.
  - cbn [parse_args fname list_sections sections key defval param Z.ltb
         Z.compare Pos.compare Pos.compare_cont andb orb].
    reflexivity.
Qed.

(** X16: the sections given with [-s] are searched in the order of the
    command line.  On [cconf -s s1 -s s2 ... key [default]] every word
    after a [-s] is a section, whatever it is; the value printed is that
    of the first section that has one for the key, with status 0, and the
    default is not looked at then; when no section has a value the
    default is printed with status 0 if one was given, and otherwise
    nothing is printed and the status is 1. *)
Theorem main_searches_sections_in_order :
  forall conf load ss k dflt,
    ss <> [] ->
    is_option k = false ->
    match dflt with Some d => is_option d = false | None => True end ->
    let args :=
      dash_s ss ++ k :: match dflt with Some d => [d] | None => [] end in
    (forall pre s post v,
        ss = pre ++ s :: post ->
        (forall p, In p pre -> conf_read (load conf) p (Some k) = None) ->
        conf_read (load conf) s (Some k) = Some v ->
        main conf load args = Exit 0 [v] []) /\
    ((forall p, In p ss -> conf_read (load conf) p (Some k) = None) ->
     main conf load args
     = match dflt with
       | Some d => Exit 0 [d] []
       | None => Exit 1 [] []
       end).
Proof.
  intros conf load ss k dflt Hne Hk Hd args. subst args.
  rewrite (main_dash_s conf load ss k dflt Hne Hk Hd). split.
  - intros pre s post v -> Hpre Hs.
    rewrite (read_sections_first _ pre s post (Some k) v Hpre Hs).
    reflexivity.
  - intros Hnone. rewrite (read_sections_none _ ss (Some k) Hnone).
    reflexivity.
Qed.

(** X17: listing wins over everything else.  When the command line ends
    in [-l prefix] (or [--list_sections prefix]) and the loop gets
    through what comes before, [main] prints the names of the sections
    that start with the prefix, in the order of the file named by the
    last [-c] (or the default one), and ends with status 0: sections,
    key, default and the parameter count play no part, and neither does
    an earlier [-l]. *)
Theorem main_lists_sections_by_prefix :
  forall conf load pre opt pfx st,
    parse_args pre (initial conf) = Some st ->
    opt = "-l" \/ opt = "--list_sections" ->
    main conf load (pre ++ [opt; pfx])
    = Exit 0
        (filter (String.prefix pfx) (get_section_list (load (fname st)))) [].
Proof.
  intros conf load pre opt pfx st Hp Hopt. unfold main.
  replace (length (pre ++ [opt; pfx]) <? 2)%nat with false
    by (symmetry; apply Nat.ltb_ge; rewrite length_app; cbn [length]; lia).
  rewrite (parse_args_app (length pre) pre [opt; pfx] (initial conf) st
             (Nat.le_refl _) Hp).
  destruct Hopt as [-> | ->]; cbn [parse_args String.eqb Ascii.eqb Bool.eqb
                                   orb list_sections fname andb];
    reflexivity.
Qed.


(** * The properties at work, and where the code leaves the specification *)

(** A shard with a cls_log header and a FIFO: [probe_shard] says corrupt
    and [log_backing_type] over two shards fails with EIO. *)
Lemma probe_shard_fifo_and_omap_is_corrupt_witness :
  let env := steady (rflag 0 true) in
  fifo_and_omap_evidence env (shard_oid 0 1) tt = true /\
  value (probe_shard env (shard_oid 0 1) tt) = (shard_check.corrupt, false) /\
  value (log_backing_type env log_type.fifo 2 (shard_oid 0) tt)
    = Unexpected EIO.
Proof.
  intros env.
  destruct (probe_shard_fifo_and_omap_is_corrupt env) as [Hprobe Htype].
  split; [reflexivity|]. split.
  - apply Hprobe. reflexivity.
  - apply (Htype log_type.fifo 2 (shard_oid 0) 1 tt).
    + lia.
    + intros []. reflexivity.
Defined.

(** Two absent shards and a default of FIFO: one create, on shard 0. *)
Lemma log_backing_type_all_absent_witness :
  let w := [rc (- ENOENT); rc (- ENOENT); rc 0] in
  all_absent scripted (shard_oid 0) 2 0 w = true /\
  exists r,
    filter is_store_write
      (trace (log_backing_type scripted log_type.fifo 2 (shard_oid 0) w))
      = [EvFifoCreate (shard_oid 0 0) r] /\
    value (log_backing_type scripted log_type.fifo 2 (shard_oid 0) w)
      = (if r <? 0 then Unexpected (- r) else Expected log_type.fifo).
Proof.
  intros w. split; [reflexivity|].
  apply (log_backing_type_all_absent scripted log_type.fifo 2 (shard_oid 0) w).
  reflexivity.
Defined.

(** C9 as stated fails: a probe for FIFO metadata that answers "no data"
    (the shard is not a FIFO) is an error other than "no such object", yet
    [log_remove] returns success. *)
Lemma log_remove_ignores_no_data_of_probe :
  let run := log_remove scripted 1 (shard_oid 1) false
               [rmeta (- ENODATA) no_info; rc 0] in
  trace run = [EvFifoGetMeta (shard_oid 1 0) (- ENODATA) no_info;
               EvRemove (shard_oid 1 0) 0] /\
  value run = 0 /\
  first_error_but_enoent (trace run) = ENODATA /\
  value run <> first_error_but_enoent (trace run).
Proof.
  cbv zeta. repeat split. vm_compute. discriminate.
Qed.

(** ** update *)

(** A read with the version held changes nothing; a read whose lowest
    non-empty key went down from 1 to 0 is refused. *)
Lemma update_noop_or_inconsistency_witness :
  let s := mk_mgr [gen 1 log_type.omap false] (v_at 2) 0 in
  let same := [gen 1 log_type.omap false] in
  let lower := [gen 0 log_type.fifo false] in
  (value (update scripted meta_oid s [rread (v_at 2) same]) = (Ret 0, s) /\
   trace (update scripted meta_oid s [rread (v_at 2) same])
   = [EvRead meta_oid (v_at 2) 0 (v_at 2) (Expected same)]) /\
  (value (update scripted meta_oid s [rread (v_at 3) lower]) = (Ret EFAULT, s) /\
   filter is_callback (trace (update scripted meta_oid s [rread (v_at 3) lower]))
   = []).
Proof.
  intros s same lower. split.
  - destruct (update_noop_or_inconsistency scripted meta_oid s
                [rread (v_at 2) same] 0 (v_at 2) same []
                ltac:(reflexivity) ltac:(lia)) as [Hsame _].
    apply Hsame. reflexivity.
  - destruct (update_noop_or_inconsistency scripted meta_oid s
                [rread (v_at 3) lower] 0 (v_at 3) lower []
                ltac:(reflexivity) ltac:(lia)) as [_ Hrefused].
    apply Hrefused; [reflexivity | reflexivity | right; vm_compute; discriminate].
Defined.

(** C2 as stated fails: generation 0 was drained and removed by another
    participant, so the lowest non-empty key goes from 0 to 1 and the new
    lowest non-empty entry is the first of the new map; [update] succeeds
    and installs the map, and [handle_empty_to] is not called. *)
Lemma update_tail_advanced_without_handle_empty_to :
  let s := mk_mgr [gen 0 log_type.fifo false; gen 1 log_type.omap false]
             (v_at 2) 0 in
  let es := [gen 1 log_type.omap false] in
  let run := update scripted meta_oid s [rread (v_at 4) es] in
  inconsistent es (entries_ s) = false /\
  value run = (Ret 0, mk_mgr es (v_at 4) 0) /\
  lowest_nonempty_key (entries_ s) = Some 0 /\
  lowest_nonempty_key es = Some 1 /\
  trace run = [EvRead meta_oid (v_at 2) 0 (v_at 4) (Expected es)] /\
  forall ec, ~ In (EvHandleEmptyTo (1 - 1) ec) (trace run).
Proof.
  cbv zeta. repeat split.
  intros ec [H|[]]. discriminate H.
Qed.

(** Generation 0 drained and generation 2 added by another participant:
    [handle_empty_to 0], then [handle_new_gens] with generation 2. *)
Lemma update_installs_then_announces_witness :
  let s := mk_mgr [gen 0 log_type.fifo false; gen 1 log_type.omap false]
             (v_at 2) 0 in
  let es := [gen 0 log_type.fifo true; gen 1 log_type.omap false;
             gen 2 log_type.fifo false] in
  let w := [rread (v_at 5) es; rc 0; rc 0] in
  exists cl nl cm,
    lowest_nonempty_key (entries_ s) = Some cl /\
    lowest_nonempty_key es = Some nl /\
    max_key (entries_ s) = Some cm /\
    mk_mgr es (v_at 5) 0 = mk_mgr es (v_at 5) (watchcookie s) /\
    trace (update scripted meta_oid s w)
    = EvRead meta_oid (version s) 0 (v_at 5) (Expected es)
        :: match (if cl <? nl then highest_empty_key es else None) with
           | Some h => [EvHandleEmptyTo h 0]
           | None => []
           end
        ++ match entries_above cm es with
           | [] => []
           | _ :: _ => [EvHandleNewGens (entries_above cm es) 0]
           end /\
    (dense es = true -> forall h, highest_empty_key es = Some h -> h = nl - 1).
Proof.
  intros s es w.
  apply (update_installs_then_announces scripted meta_oid s w 0 (v_at 5) es
           [rc 0; rc 0] (mk_mgr es (v_at 5) 0));
    [ reflexivity | lia | reflexivity | vm_compute; discriminate
    | reflexivity | reflexivity | reflexivity | reflexivity | reflexivity ].
Defined.

(** ** new_backing, empty_to, setup *)

(** The head is already OMAP and nothing changed remotely. *)
Lemma new_backing_same_type_is_noop_witness :
  let s := mk_mgr [gen 0 log_type.fifo false; gen 1 log_type.omap false]
             (v_at 2) 0 in
  let w := [rread (v_at 2) (entries_ s)] in
  let t1 := [EvRead meta_oid (v_at 2) 0 (v_at 2) (Expected (entries_ s))] in
  new_backing scripted meta_oid log_type.omap s w = ((Ret 0, s), [], t1) /\
  filter is_store_write t1 = [] /\
  filter is_notify t1 = [] /\
  (version s = version s -> s = s /\ filter is_callback t1 = []).
Proof.
  intros s w t1.
  apply (new_backing_same_type_is_noop scripted meta_oid log_type.omap s w
           s [] t1 1 (mk_gen 1 log_type.omap false));
    reflexivity.
Defined.

(** [empty_to] of the head (scenario 7 of the specification), and of a
    generation below the tail. *)
Lemma empty_to_head_or_below_tail_witness :
  let s := mk_mgr [gen 1 log_type.fifo true; gen 2 log_type.omap false]
             (v_at 3) 0 in
  let w := [rread (v_at 3) (entries_ s)] in
  let t1 := [EvRead meta_oid (v_at 3) 0 (v_at 3) (Expected (entries_ s))] in
  empty_to scripted meta_oid 2 s w
  = ((Ret EINVAL, s), [],
     t1 ++ [EvLog "Attempt to trim beyond the possible."]) /\
  empty_to scripted meta_oid 0 s w = ((Ret 0, s), [], t1).
Proof.
  intros s w t1.
  destruct (empty_to_head_or_below_tail scripted meta_oid 2 s w s [] t1
              ltac:(reflexivity)) as [Hhead _].
  destruct (empty_to_head_or_below_tail scripted meta_oid 0 s w s [] t1
              ltac:(reflexivity)) as [_ [Htail _]].
  split.
  - apply (Hhead 2 (mk_gen 2 log_type.omap false)); [reflexivity | lia].
  - apply (Htail 1 (mk_gen 1 log_type.fifo true)
             [gen 2 log_type.omap false]); [reflexivity | reflexivity | lia].
Defined.

(** Scenario 1 of the specification with a watch that cannot be armed:
    the metadata object is created, the watch fails with ENOTCONN, and
    [handle_init] is called with generation 0 and its result returned. *)
Lemma setup_watch_failure_still_delivers_witness :
  let s := mk_mgr [] (mk_version 0 "") 0 in
  let w := [rc (- ENOENT);            (* read: no metadata object *)
            rc (- ENOENT);            (* probe of shard 0: absent *)
            rc 0;                     (* FIFO::create *)
            mk_reply 0 false (v_at 0) (Expected []) no_info "tag";
            rc 0;                     (* create of the metadata object *)
            rc (-107);                (* watch2 *)
            rc 0] in                  (* handle_init *)
  let e := [gen 0 log_type.fifo false] in
  value (setup scripted meta_oid shard_oid 1 log_type.fifo s w)
  = (0, mk_mgr e (v_at 1) 1) /\
  filter is_callback
    (trace (setup scripted meta_oid shard_oid 1 log_type.fifo s w))
  = [EvHandleInit e 0].
Proof.
  intros s w e.
  pose proof (setup_watch_failure_still_delivers scripted meta_oid shard_oid 1
                log_type.fifo s w (mk_mgr e (v_at 1) 0) (mk_mgr e (v_at 1) 0)
                [rc (-107); rc 0]
                (trace (setup_load scripted meta_oid shard_oid 1
                          log_type.fifo s w))
                (-107) 1 [rc 0] 0 []
                ltac:(reflexivity) ltac:(reflexivity) ltac:(lia)
                ltac:(reflexivity)) as H.
  rewrite H. split; reflexivity.
Defined.

(** C5 as stated fails: the head is already OMAP, in the map held and in
    the map stored, but another participant has added generations 2 and 3
    since the last refresh.  [new_backing] makes no write and sends no
    notify, yet the refresh it starts with installs the stored map and
    version and calls [handle_new_gens] with generations 2 and 3 before
    the no-op return. *)
Lemma new_backing_same_type_refresh_announces :
  let s := mk_mgr [gen 0 log_type.fifo false; gen 1 log_type.omap false]
             (v_at 2) 0 in
  let stored := [gen 0 log_type.fifo false; gen 1 log_type.omap false;
                 gen 2 log_type.fifo false; gen 3 log_type.omap false] in
  let run :=
    new_backing scripted meta_oid log_type.omap s
      [rread (v_at 4) stored;   (* update: generations 2 and 3 are new *)
       rc 0] in                 (* handle_new_gens *)
  back (entries_ s) = Some (gen 1 log_type.omap false) /\
  back stored = Some (gen 3 log_type.omap false) /\
  value run = (Ret 0, mk_mgr stored (v_at 4) 0) /\
  version (snd (value run)) <> version s /\
  entries_ (snd (value run)) <> entries_ s /\
  trace run
  = [EvRead meta_oid (v_at 2) 0 (v_at 4) (Expected stored);
     EvHandleNewGens
       [gen 2 log_type.fifo false; gen 3 log_type.omap false] 0] /\
  filter is_store_write (trace run) = [] /\
  filter is_notify (trace run) = [].
Proof.
  cbv zeta.
  split; [reflexivity|]. split; [reflexivity|]. split; [reflexivity|].
  split; [vm_compute; discriminate|].
  split; [vm_compute; discriminate|].
  split; [reflexivity|]. split; reflexivity.
Qed.

(** C6 as stated fails: [gen_id] 3 is above the maximum key held, 2, and
    equal to the maximum key stored, since another participant has added
    generation 3.  [empty_to] fails with EINVAL without a write or a
    notify, but after the refresh it starts with has replaced the entries
    map and the version and has called [handle_new_gens] with
    generation 3. *)
Lemma empty_to_invalid_after_refresh_changes_state :
  let s := mk_mgr [gen 1 log_type.fifo true; gen 2 log_type.omap false]
             (v_at 3) 0 in
  let stored := [gen 1 log_type.fifo true; gen 2 log_type.omap false;
                 gen 3 log_type.fifo false] in
  let run :=
    empty_to scripted meta_oid 3 s
      [rread (v_at 4) stored;   (* update: generation 3 is new *)
       rc 0] in                 (* handle_new_gens *)
  max_key (entries_ s) = Some 2 /\
  max_key stored = Some 3 /\
  value run = (Ret EINVAL, mk_mgr stored (v_at 4) 0) /\
  entries_ (snd (value run)) <> entries_ s /\
  version (snd (value run)) <> version s /\
  trace run
  = [EvRead meta_oid (v_at 3) 0 (v_at 4) (Expected stored);
     EvHandleNewGens [gen 3 log_type.fifo false] 0;
     EvLog "Attempt to trim beyond the possible."] /\
  filter is_store_write (trace run) = [] /\
  filter is_notify (trace run) = [].
Proof.
  cbv zeta.
  split; [reflexivity|]. split; [reflexivity|]. split; [reflexivity|].
  split; [vm_compute; discriminate|].
  split; [vm_compute; discriminate|].
  split; [reflexivity|]. split; reflexivity.
Qed.

(** ** Where the code leaves the specification *)

(** C3 fails on the code.  First run: the first write is canceled, and
    the refresh finds that another participant has added generations 1
    (OMAP) and 2 (FIFO); the second round adds generation 3 to
    [new_entries], which still holds generation 1 from the first round;
    the write succeeds and [handle_new_gens] is called with generations 1
    and 3, not with generation 3 alone.  Second run: nine writes are
    canceled and the tenth succeeds; [tries] is then [max_tries] and
    [new_backing] returns without a notify and without a call of
    [handle_new_gens]. *)
Lemma new_backing_after_canceled_writes :
  let s := mk_mgr [gen 0 log_type.fifo false] (v_at 1) 0 in
  let remote := [gen 0 log_type.fifo false; gen 1 log_type.omap false;
                 gen 2 log_type.fifo false] in
  let added := gen 3 log_type.omap false in
  let run1 :=
    new_backing scripted meta_oid log_type.omap s
      [rread (v_at 1) (entries_ s);  (* update: nothing new *)
       rc (- ECANCELED);             (* write of {0, 1}: canceled *)
       rread (v_at 3) remote;        (* its update: generations 1, 2 *)
       rc 0;                         (* handle_new_gens {1, 2} *)
       rc 0;                         (* write of {0, 1, 2, 3} *)
       rc 0;                         (* notify *)
       rc 0] in                      (* handle_new_gens *)
  let again := [rc (- ECANCELED); rread (v_at 1) (entries_ s)] in
  let run2 :=
    new_backing scripted meta_oid log_type.omap s
      (rread (v_at 1) (entries_ s) :: concat (repeat again 9) ++ [rc 0]) in
  (value run1 = (Ret 0, mk_mgr (remote ++ [added]) (v_at 4) 0) /\
   trace run1
   = [EvRead meta_oid (v_at 1) 0 (v_at 1) (Expected (entries_ s));
      EvWrite meta_oid (v_at 1)
        [gen 0 log_type.fifo false; gen 1 log_type.omap false] (- ECANCELED);
      EvRead meta_oid (v_at 1) 0 (v_at 3) (Expected remote);
      EvHandleNewGens
        [gen 1 log_type.omap false; gen 2 log_type.fifo false] 0;
      EvWrite meta_oid (v_at 3) (remote ++ [added]) 0;
      EvNotify meta_oid 10000 0;
      EvHandleNewGens [gen 1 log_type.omap false; added] 0]) /\
  (value run2
   = (Ret 0, mk_mgr [gen 0 log_type.fifo false; gen 1 log_type.omap false]
               (v_at 2) 0) /\
   length (filter is_store_write (trace run2)) = 10%nat /\
   filter is_notify (trace run2) = [] /\
   filter is_callback (trace run2) = [] /\
   last (trace run2) (EvLog "") = EvLog "exhausted retry attempts.").
Proof.
  cbv zeta. split.
  - split; vm_compute; reflexivity.
  - repeat split; vm_compute; reflexivity.
Qed.

(** C4 fails on the code for [remove_empty].  Generation 0 is empty and
    its shard is removed; the write of the remaining map is canceled and
    the refresh that follows succeeds; the second round of the loop runs
    over [es], which by then holds what was passed to [write], generation
    1 first, and [ceph_assert(e.empty)] fails on it: no second write is
    attempted. *)
Lemma remove_empty_retry_aborts :
  let s := mk_mgr [gen 0 log_type.fifo true; gen 1 log_type.omap false]
             (v_at 3) 0 in
  let run :=
    remove_empty scripted meta_oid shard_oid 1 s
      [rread (v_at 3) (entries_ s);   (* update: nothing new *)
       rmeta (- ENODATA) no_info;     (* generation 0, shard 0: no FIFO *)
       rc 0;                          (* cleared and truncated *)
       rc (- ECANCELED);              (* write of {1}: canceled *)
       rread (v_at 3) (entries_ s)] in (* its update: nothing new *)
  value run = (Abort, s) /\
  trace run
  = [EvRead meta_oid (v_at 3) 0 (v_at 3) (Expected (entries_ s));
     EvFifoGetMeta (shard_oid 0 0) (- ENODATA) no_info;
     EvClearTruncate (shard_oid 0 0) 0;
     EvWrite meta_oid (v_at 3) [gen 1 log_type.omap false] (- ECANCELED);
     EvRead meta_oid (v_at 3) 0 (v_at 3) (Expected (entries_ s))].
Proof.
  cbv zeta. split; vm_compute; reflexivity.
Qed.

(** * The further properties at work *)

(** Shard 0 absent, shard 1 a FIFO with entries, a default of OMAP: the
    answer is FIFO and nothing is created. *)
Lemma log_backing_type_agreement_witness :
  let w := [rc (- ENOENT); rflag 0 false; rflag 0 true; rflag 0 true] in
  all_agree scripted (shard_oid 0) (check_of log_type.fifo) 2 0 w = true /\
  filter is_store_write
    (trace (log_backing_type scripted log_type.omap 2 (shard_oid 0) w)) = [].
Proof.
  intros w.
  apply (log_backing_type_agreement scripted log_type.omap 2 (shard_oid 0) w
           log_type.fifo); reflexivity.
Defined.

(** Two absent shards, a default of FIFO, and a create that is refused
    (EACCES): that error is the result. *)
Lemma log_backing_type_errors_witness :
  let w := [rc (- ENOENT); rc (- ENOENT); rc (-13)] in
  13 = EIO \/
  (log_type.fifo = log_type.fifo /\
   all_absent scripted (shard_oid 0) 2 0 w = true /\
   exists r,
     r < 0 /\ 13 = - r /\
     filter is_store_write
       (trace (log_backing_type scripted log_type.fifo 2 (shard_oid 0) w))
     = [EvFifoCreate (shard_oid 0 0) r]).
Proof.
  intros w.
  apply (log_backing_type_errors scripted log_type.fifo 2 (shard_oid 0) w 13).
  reflexivity.
Defined.

(** A refresh that finds generation 0 emptied and generation 2 added. *)
Lemma update_keeps_head_and_is_monotone_witness :
  let s := mk_mgr [gen 0 log_type.fifo false; gen 1 log_type.omap false]
             (v_at 2) 0 in
  let es := [gen 0 log_type.fifo true; gen 1 log_type.omap false;
             gen 2 log_type.fifo false] in
  let w := [rread (v_at 5) es; rc 0; rc 0] in
  exists ec s' cl' cm',
    value (update scripted meta_oid s w) = (Ret ec, s') /\
    lowest_nonempty_key (entries_ s') = Some cl' /\
    max_key (entries_ s') = Some cm' /\
    0 <= cl' /\ 1 <= cm'.
Proof.
  intros s es w.
  apply (update_keeps_head_and_is_monotone scripted meta_oid s w 0 1);
    reflexivity.
Defined.

(** The same refresh with a [handle_empty_to] that fails with 7: the map
    read is installed, 7 is returned and [handle_new_gens] is not
    called. *)
Lemma update_installs_before_handlers_witness :
  let s := mk_mgr [gen 0 log_type.fifo false; gen 1 log_type.omap false]
             (v_at 2) 0 in
  let es := [gen 0 log_type.fifo true; gen 1 log_type.omap false;
             gen 2 log_type.fifo false] in
  let w := [rread (v_at 5) es; rc 7; rc 0] in
  let run := update scripted meta_oid s w in
  snd (value run) = mk_mgr es (v_at 5) (watchcookie s) /\
  (forall h ec1,
      In (EvHandleEmptyTo h ec1) (trace run) -> ec1 <> 0 ->
      fst (value run) = Ret ec1 /\
      forall e ec2, ~ In (EvHandleNewGens e ec2) (trace run)) /\
  (forall e ec2,
      In (EvHandleNewGens e ec2) (trace run) -> fst (value run) = Ret ec2).
Proof.
  intros s es w.
  apply (update_installs_before_handlers scripted meta_oid s w 0 (v_at 5) es
           [rc 7; rc 0]);
    [reflexivity | lia | reflexivity | vm_compute; discriminate
    | reflexivity].
Defined.

(** A CAS write that succeeds. *)
Lemma write_success_means_written_witness :
  let s := mk_mgr [gen 0 log_type.fifo false] (v_at 1) 0 in
  let e := [gen 0 log_type.fifo false; gen 1 log_type.omap false] in
  exists r,
    write_results (trace (write scripted meta_oid e s [rc 0])) = [r] /\
    0 <= r /\
    mk_mgr e (v_at 2) 0
    = (if r =? 0
       then mk_mgr e (version_inc (version s)) (watchcookie s)
       else s).
Proof.
  intros s e.
  apply (write_success_means_written scripted meta_oid e s [rc 0]
           (mk_mgr e (v_at 2) 0)).
  reflexivity.
Defined.




(** Two participants start together: the create of this one finds the
    object (EEXIST), and the other one has already moved on to
    generation 1, so the shard of generation 0 is cleared. *)
Lemma setup_lost_race_takes_stored_state_witness :
  let s := mk_mgr [] (mk_version 0 "") 0 in
  let stored := [gen 1 log_type.omap false] in
  let w := [rc (- ENOENT);            (* read: no metadata object *)
            rc (- ENOENT);            (* probe of shard 0: absent *)
            rc 0;                     (* FIFO::create *)
            mk_reply 0 false (v_at 0) (Expected []) no_info "tag";
            rc (- EEXIST);            (* create of the metadata object *)
            rread (v_at 7) stored;    (* the read again *)
            rmeta (- ENODATA) no_info; (* generation 0, shard 0: no FIFO *)
            rc 0] in                  (* cleared and truncated *)
  value (setup_load scripted meta_oid shard_oid 1 log_type.fifo s w)
  = (Expected (mk_mgr stored (v_at 7) 0), mk_mgr stored (v_at 7) 0) /\
  filter is_clear
    (trace (setup_load scripted meta_oid shard_oid 1 log_type.fifo s w))
  = [EvClearTruncate (shard_oid 0 0) 0].
Proof.
  intros s stored w.
  pose proof (setup_lost_race_takes_stored_state scripted meta_oid shard_oid 1
                log_type.fifo s w (- ENOENT) (mk_version 0 "") (Expected [])
                (tl w) log_type.fifo
                (world (log_backing_type scripted log_type.fifo 1
                          (shard_oid 0) (tl w)))
                (trace (log_backing_type scripted log_type.fifo 1
                          (shard_oid 0) (tl w)))
                "tag"
                [rc (- EEXIST); rread (v_at 7) stored;
                 rmeta (- ENODATA) no_info; rc 0]
                (- EEXIST)
                [rread (v_at 7) stored; rmeta (- ENODATA) no_info; rc 0]
                0 (v_at 7) 1 (mk_gen 1 log_type.omap false) []
                [rmeta (- ENODATA) no_info; rc 0]
                ltac:(reflexivity) ltac:(reflexivity) ltac:(reflexivity)
                ltac:(reflexivity) ltac:(reflexivity)
                ltac:(vm_compute; discriminate)
                ltac:(reflexivity) ltac:(lia)) as H.
  cbv zeta in H. rewrite H. split; reflexivity.
Defined.

(** Scenario 3 of the specification: the head is FIFO and OMAP is asked
    for. *)
Lemma new_backing_appends_next_generation_witness :
  let s := mk_mgr [gen 0 log_type.fifo false] (v_at 1) 0 in
  let w := [rread (v_at 1) (entries_ s); rc 0; rc 0; rc 0] in
  let t1 := [EvRead meta_oid (v_at 1) 0 (v_at 1) (Expected (entries_ s))] in
  let es := entries_ s ++ [(0 + 1, mk_gen (0 + 1) log_type.omap false)] in
  (exists r rest,
      trace (new_backing scripted meta_oid log_type.omap s w)
      = t1 ++ EvWrite meta_oid (version s) es r :: rest) /\
  flat_map_ok es = true /\
  (dense (entries_ s) = true -> dense es = true) /\
  back es = Some (0 + 1, mk_gen (0 + 1) log_type.omap false).
Proof.
  intros s w t1 es.
  apply (new_backing_appends_next_generation scripted meta_oid log_type.omap
           s w s [rc 0; rc 0; rc 0] t1 0 (mk_gen 0 log_type.fifo false));
    [reflexivity | reflexivity | reflexivity | reflexivity | lia
    | vm_compute; reflexivity].
Defined.

(** Generations 0 and 1 are drained, generation 2 is the head. *)
Lemma empty_to_marks_up_to_gen_id_witness :
  let s := mk_mgr [gen 0 log_type.fifo false; gen 1 log_type.omap false;
                   gen 2 log_type.fifo false] (v_at 3) 0 in
  let w := [rread (v_at 3) (entries_ s); rc 0; rc 0; rc 0] in
  let es := [gen 0 log_type.fifo true; gen 1 log_type.omap true;
             gen 2 log_type.fifo false] in
  exists nt,
    greatest_key_to 1 (entries_ s) nt /\
    empty_to scripted meta_oid 1 s w
    = ((Ret 0, mk_mgr es (v_at 4) 0), [],
       [EvRead meta_oid (v_at 3) 0 (v_at 3) (Expected (entries_ s));
        EvWrite meta_oid (v_at 3) es 0;
        EvNotify meta_oid 10000 0;
        EvHandleEmptyTo nt 0]).
Proof.
  intros s w es.
  destruct (empty_to_marks_up_to_gen_id scripted meta_oid 1 s w s
              [rc 0; rc 0; rc 0]
              [EvRead meta_oid (v_at 3) 0 (v_at 3) (Expected (entries_ s))]
              2 (mk_gen 2 log_type.fifo false) [rc 0; rc 0] 0 [rc 0]
              ltac:(reflexivity) ltac:(reflexivity) ltac:(reflexivity)
              ltac:(lia) ltac:(vm_compute; discriminate)
              ltac:(reflexivity) ltac:(reflexivity) ltac:(lia))
    as (_ & nt & Hnt & Hrun).
  exists nt. split; [exact Hnt | exact Hrun].
Defined.


(** ** cconf *)


(** [cconf -s osd -s mon -s global debug 0]: osd has no value for the
    key, mon has 5, and global, which has 1, is not reached. *)
Lemma main_searches_sections_in_order_witness :
  main "ceph.conf" (fun _ => sample_conf)
    ["-s"; "osd"; "-s"; "mon"; "-s"; "global"; "debug"; "0"]
  = Exit 0 ["5"] [].
Proof.
  destruct (main_searches_sections_in_order "ceph.conf"
              (fun _ => sample_conf) ["osd"; "mon"; "global"] "debug"
              (Some "0") ltac:(discriminate) ltac:(reflexivity)
              ltac:(reflexivity)) as [Hfirst _].
  apply (Hfirst ["osd"] "mon" ["global"] "5");
    [reflexivity | intros p [<-|[]]; reflexivity | reflexivity].
Defined.

(** [cconf -c my.conf -s osd a b c -l mon]: four parameters counted, and
    the sections that start with mon are listed all the same. *)
Lemma main_lists_sections_by_prefix_witness :
  main "ceph.conf" (fun _ => sample_conf)
    ["-c"; "my.conf"; "-s"; "osd"; "a"; "b"; "c"; "-l"; "mon"]
  = Exit 0 ["mon"; "mon.a"] [].
Proof.
  apply (main_lists_sections_by_prefix "ceph.conf" (fun _ => sample_conf)
           ["-c"; "my.conf"; "-s"; "osd"; "a"; "b"; "c"] "-l" "mon"
           (mk_locals "my.conf" None ["osd"] (Some "a") (Some "b") 4));
    [reflexivity | left; reflexivity].
Defined.
